(** * Reflex event streams: the read-through cache, the stream client,
      the insert path, the in-memory notifier and the blob cursor.

    A shallow embedding of [rsql/rcache.go], [rsql/eventstable.go] and
    [rblob/blob.go].  Go's [int64] and [int] (64-bit) values are integers
    in [Z] with the wrap-around of every arithmetic operation written
    out; slices are lists; a run-time panic (slice bounds, nil function
    call) is an explicit outcome. *)

From Stdlib Require Import ZArith List Bool Lia String Ascii.
Import ListNotations.
Local Open Scope Z_scope.

(* ===================================================================== *)
(** * Part I: the model                                                   *)
(* ===================================================================== *)

(** ** Machine integers *)

Module Int64.

Definition min_int64 : Z := - 2 ^ 63.
Definition max_int64 : Z := 2 ^ 63 - 1.
Definition max_uint64 : Z := 2 ^ 64 - 1.

(** Two's complement reduction of an integer to the [int64] range. *)
Definition wrap64 (z : Z) : Z := (z + 2 ^ 63) mod 2 ^ 64 - 2 ^ 63.

Definition in_int64 (z : Z) : Prop := min_int64 <= z <= max_int64.

Definition add64 (a b : Z) : Z := wrap64 (a + b).
Definition sub64 (a b : Z) : Z := wrap64 (a - b).
Definition neg64 (a : Z) : Z := wrap64 (- a).

End Int64.
Import Int64.

(** ** Outcomes: a Go call either returns or panics *)

Inductive outcome (A : Type) : Type :=
| Ok (a : A)
| Panic.
Arguments Ok {A} a.
Arguments Panic {A}.

Definition obind {A B : Type} (o : outcome A) (k : A -> outcome B) : outcome B :=
  match o with
  | Ok a => k a
  | Panic => Panic
  end.

Notation "x <- c ;; k" := (obind c (fun x => k))
  (at level 61, c at next level, right associativity).
Notation "' p <- c ;; k" := (obind c (fun x => let p := x in k))
  (at level 61, p pattern, c at next level, right associativity).

(** ** Errors *)

(** The error values the modelled code creates or passes on.  [ErrNew] is
    [errors.New msg], [ErrWrap e msg] is jettison's [errors.Wrap e msg],
    [ErrCtx] a context error, [ErrExternal] any error produced by a
    collaborator (database, underlying loader). *)
Inductive error : Type :=
| ErrInvalidIntID
| ErrConsecEvent
| ErrNextCursorMismatch
| ErrNew (msg : string)
| ErrWrap (e : error) (msg : string)
| ErrCtx (msg : string)
| ErrExternal (msg : string).

(** ** package reflex *)

Module Reflex.

(** Modelled from the spec: the [reflex.Event] struct and its [IDInt]
    accessor are declared outside the available sources.  Per the data
    model an event has a 64-bit integer id, a commit timestamp, a type
    (its [ReflexType()] number), a foreign id and optional metadata.
    Timestamps are instants counted in nanoseconds. *)
Record Event : Type := mkEvent {
  IDInt : Z;
  Timestamp : Z;
  Type_ : Z;
  ForeignID : string;
  MetaData : list Z
}.

Definition zeroEvent : Event := mkEvent 0 0 0 EmptyString [].

End Reflex.
Import Reflex.

(** ** package rsql: the read-through cache *)

Module Rcache.

Definition defaultRCacheLimit : Z := 10000.

(** What a [Loader] call returns: [(events, next cursor, error)]. *)
Definition LoadResult : Type := (list Event * Z * option error)%type.

(** The underlying loader as seen by one call: Go's
    [loader(ctx, dbc, after, lag)]. *)
Definition Loader : Type := Z -> Z -> LoadResult.

(** The [rcache] struct; the lock, the metrics label and the loader
    (supplied per call by the environment) are not state of the model. *)
Record rcache : Type := mkRCache {
  cache : list Event;
  limit : Z
}.

(** The two Prometheus counters [Load] increments. *)
Record metrics : Type := mkMetrics {
  rcacheHitsCounter : nat;
  rcacheMissCounter : nat
}.

(** The environment of one [Load] call: the clock read by [time.Now()]
    and the behaviour of the wrapped loader at that moment. *)
Record env : Type := mkEnv {
  now : Z;
  loader : Loader
}.

Definition newRCache : rcache :=
  {| cache := []; limit := defaultRCacheLimit |}.

Definition lenUnsafe (c : rcache) : Z := Z.of_nat (List.length (cache c)).

Definition emptyUnsafe (c : rcache) : bool := lenUnsafe c =? 0.

Definition headUnsafe (c : rcache) : Z :=
  if emptyUnsafe c then 0
  else match cache c with
       | e :: _ => IDInt e
       | [] => 0
       end.

Definition tailUnsafe (c : rcache) : Z :=
  if emptyUnsafe c then 0
  else IDInt (last (cache c) zeroEvent).

Definition getLastID (el : list Event) : Z :=
  match el with
  | [] => 0
  | _ => IDInt (last el zeroEvent)
  end.

(** The loop of [maybeHitUnsafe]: collect events until the first one whose
    timestamp is after the cut-off. *)
Fixpoint collectUntil (cutOff : Z) (l : list Event) : list Event :=
  match l with
  | [] => []
  | e :: t => if Timestamp e >? cutOff then [] else e :: collectUntil cutOff t
  end.

(** [maybeHitUnsafe]: the slice expression [c.cache[offset:]] panics
    unless [0 <= offset <= len]; the indexing loop panics at a negative
    offset and does nothing at an offset past the end. *)
Definition maybeHitUnsafe (c : rcache) (now_ from lag : Z)
  : outcome (list Event * bool) :=
  if (from <? headUnsafe c) || (from >? tailUnsafe c) then Ok ([], false)
  else
    let offset := sub64 from (headUnsafe c) in
    if lag =? 0 then
      if (0 <=? offset) && (offset <=? lenUnsafe c)
      then Ok (skipn (Z.to_nat offset) (cache c), true)
      else Panic
    else
      let cutOff := now_ + neg64 lag in
      if offset <? lenUnsafe c then
        if offset <? 0 then Panic
        else Ok (collectUntil cutOff (skipn (Z.to_nat offset) (cache c)), true)
      else Ok ([], true).

(** The sanity loop of [readThrough]: [true] when some adjacent pair of
    the batch is not consecutive. *)
Fixpoint hasNonConsec (res : list Event) : bool :=
  match res with
  | a :: (b :: _) as t =>
      if negb (IDInt b =? add64 (IDInt a) 1) then true else hasNonConsec t
  | _ => false
  end.

Definition maybeUpdateUnsafe (c : rcache) (el : list Event) : rcache :=
  match el with
  | [] => c
  | e0 :: _ =>
      let next := IDInt e0 in
      if emptyUnsafe c then {| cache := el; limit := limit c |}
      else if add64 (tailUnsafe c) 1 <? next
      then {| cache := el; limit := limit c |}
      else if add64 (tailUnsafe c) 1 =? next
      then {| cache := cache c ++ el; limit := limit c |}
      else c
  end.

Definition maybeTrimUnsafe (c : rcache) : outcome rcache :=
  if lenUnsafe c >? limit c then
    let offset := sub64 (lenUnsafe c) (limit c) in
    if (0 <=? offset) && (offset <=? lenUnsafe c)
    then Ok {| cache := skipn (Z.to_nat offset) (cache c); limit := limit c |}
    else Panic
  else Ok c.

(** What a [Load] call leaves behind: its three results, the cache, the
    counters and the arguments of every call it made to the wrapped
    loader. *)
Record LoadRet : Type := mkLoadRet {
  events : list Event;
  nextCursor : Z;
  err : option error;
  rc : rcache;
  mt : metrics;
  loaderCalls : list (Z * Z)
}.

Definition readThrough (e : env) (c : rcache) (m : metrics) (after lag : Z)
  : outcome LoadRet :=
  '(hit, ok) <- maybeHitUnsafe c (now e) (add64 after 1) lag ;;
  if ok then Ok (mkLoadRet hit (getLastID hit) None c m [])
  else
    let '(res, next, er) := loader e after lag in
    let calls := [(after, lag)] in
    match er with
    | Some x => Ok (mkLoadRet [] 0 (Some x) c m calls)
    | None =>
        if Z.of_nat (List.length res) =? 0 then Ok (mkLoadRet [] after None c m calls)
        else if hasNonConsec res
        then Ok (mkLoadRet [] 0 (Some ErrConsecEvent) c m calls)
        else if negb (next =? getLastID res)
        then Ok (mkLoadRet [] 0 (Some (ErrWrap ErrNextCursorMismatch "")) c m calls)
        else
          c' <- maybeTrimUnsafe (maybeUpdateUnsafe c res) ;;
          Ok (mkLoadRet res next None c' m calls)
    end.

Definition Load (e : env) (c : rcache) (m : metrics) (after lag : Z)
  : outcome LoadRet :=
  '(res, ok) <- maybeHitUnsafe c (now e) (add64 after 1) lag ;;
  if ok then
    Ok (mkLoadRet res (getLastID res) None c
          (mkMetrics (S (rcacheHitsCounter m)) (rcacheMissCounter m)) [])
  else
    readThrough e c (mkMetrics (rcacheHitsCounter m) (S (rcacheMissCounter m)))
      after lag.

End Rcache.

(** ** Go's standard library: strconv, fmt, strings *)

Module Strconv.

Inductive numError : Type := ErrSyntax | ErrRange.

Definition isDigit (c : ascii) : bool :=
  let n := Z.of_nat (nat_of_ascii c) in (48 <=? n) && (n <=? 57).

Definition digitVal (c : ascii) : Z := Z.of_nat (nat_of_ascii c) - 48.

Definition digitChar (d : Z) : ascii := ascii_of_nat (Z.to_nat (48 + d)).

(** The smallest number such that [cutoff * 10 > maxUint64]. *)
Definition cutoff10 : Z := max_uint64 / 10 + 1.

(** The digit loop of [strconv.ParseUint(s, 10, 64)] with accumulator
    [n]; a byte that is not a decimal digit is a syntax error (a letter
    is a digit value of at least ten, which base 10 rejects). *)
Fixpoint parseUintLoop (s : string) (n : Z) : Z * option numError :=
  match s with
  | EmptyString => (n, None)
  | String c t =>
      if isDigit c then
        if n >=? cutoff10 then (max_uint64, Some ErrRange)
        else
          let n10 := (n * 10) mod 2 ^ 64 in
          let n1 := (n10 + digitVal c) mod 2 ^ 64 in
          if (n1 <? n10) || (n1 >? max_uint64) then (max_uint64, Some ErrRange)
          else parseUintLoop t n1
      else (0, Some ErrSyntax)
  end.

Definition ParseUint (s : string) : Z * option numError :=
  match s with
  | EmptyString => (0, Some ErrSyntax)
  | _ => parseUintLoop s 0
  end.

(** [strconv.ParseInt(s, 10, 64)]: the value and the error, both of
    which Go returns. *)
Definition ParseInt (s : string) : Z * option numError :=
  match s with
  | EmptyString => (0, Some ErrSyntax)
  | String c t =>
      let neg := Ascii.eqb c "-" in
      let s' := if Ascii.eqb c "+" then t else if neg then t else s in
      match ParseUint s' with
      | (_, Some ErrSyntax) => (0, Some ErrSyntax)
      | (un, _) =>
          let cutoff := 2 ^ 63 in
          if negb neg && (un >=? cutoff) then (cutoff - 1, Some ErrRange)
          else if neg && (un >? cutoff) then (- cutoff, Some ErrRange)
          else
            let n := wrap64 un in
            (if neg then neg64 n else n, None)
      end
  end.

(** Decimal digits of an unsigned value, most significant first, pushed
    in front of [acc]; twenty rounds cover every [uint64]. *)
Fixpoint fmtDigits (fuel : nat) (u : Z) (acc : string) : string :=
  match fuel with
  | O => acc
  | S f =>
      if u <? 10 then String (digitChar u) acc
      else fmtDigits f (u / 10) (String (digitChar (u mod 10)) acc)
  end.

(** [strconv.FormatInt(i, 10)], which is what the verb [%d] prints for an
    [int64]. *)
Definition FormatInt (i : Z) : string :=
  if i <? 0 then String "-" (fmtDigits 20 ((- i) mod 2 ^ 64) EmptyString)
  else fmtDigits 20 i EmptyString.

End Strconv.

Module Strings.

(** [strings.Split(s, "|")]: the substrings between the separators; one
    more element than there are separators. *)
Fixpoint Split (s : string) : list string :=
  match s with
  | EmptyString => [EmptyString]
  | String c t =>
      if Ascii.eqb c "|" then EmptyString :: Split t
      else match Split t with
           | h :: r => String c h :: r
           | [] => [String c EmptyString]
           end
  end.

(** [strings.Contains(s, "|")]. *)
Fixpoint hasPipe (s : string) : bool :=
  match s with
  | EmptyString => false
  | String c t => Ascii.eqb c "|" || hasPipe t
  end.

End Strings.

(** ** package rblob: the cursor of a blob stream *)

Module Rblob.

Local Open Scope string_scope.

Record cursor : Type := mkCursor {
  Key : string;
  Offset : Z;
  Last : bool
}.

Definition zeroCursor : cursor := mkCursor "" 0 false.

(** [cursor.String]: [fmt.Sprintf("%s|%d", c.Key, c.Offset)], then
    ["|last"] when the flag is set. *)
Definition String_ (c : cursor) : string :=
  let res := Key c ++ "|" ++ Strconv.FormatInt (Offset c) in
  if Last c then res ++ "|last" else res.

Definition parseCursor (cur : string) : cursor * option error :=
  if String.eqb cur "" then (zeroCursor, None)
  else
    let split := Strings.Split cur in
    let n := Z.of_nat (List.length split) in
    if ((n <? 2) || (n >? 3))%Z then (zeroCursor, Some (ErrNew "invalid cursor"))
    else
      match Strconv.ParseInt (nth 1 split "") with
      | (_, Some _) => (zeroCursor, Some (ErrNew "invalid cursor offset"))
      | (i, None) =>
          if (n =? 3)%Z then
            if negb (String.eqb (nth 2 split "") "last")
            then (zeroCursor, Some (ErrNew "invalid cursor end"))
            else (mkCursor (nth 0 split "") i true, None)
          else (mkCursor (nth 0 split "") i false, None)
      end.

End Rblob.

(** ** package rsql: the events table *)

Module Rsql.

Import Rcache.

(** *** The layered loader *)

(** [isNoop]: the foreign id is ["0"] and the type number is 0. *)
Definition isNoop (foreignID : string) (typ : Z) : bool :=
  String.eqb foreignID "0" && (typ =? 0).

Definition isNoopEvent (e : Event) : bool := isNoop (ForeignID e) (Type_ e).

(** Modelled from the spec: [wrapNoopFilter] is not among the available
    sources.  It drops the noop events of a batch, hands on the wrapped
    loader's next cursor unchanged and passes errors through. *)
Definition wrapNoopFilter (r : LoadResult) : LoadResult :=
  match r with
  | (el, next, None) => (filter (fun e => negb (isNoopEvent e)) el, next, None)
  | (el, next, Some x) => (el, next, Some x)
  end.

(** The state behind a table's [currentLoader]: the cache and the
    counters. *)
Definition loaderState : Type := (rcache * metrics)%type.

(** [buildLoader]: the noop filter around the cache (when enabled) around
    the gap detector around the base loader.  The environment's [loader]
    stands for the gap detector over the base loader, which hands the
    base loader's batch on as it is. *)
Definition buildLoader (enableCache : bool) (e : env) (st : loaderState)
  (after lag : Z) : outcome (LoadResult * loaderState) :=
  if enableCache then
    r <- Load e (fst st) (snd st) after lag ;;
    Ok (wrapNoopFilter (events r, nextCursor r, err r), (rc r, mt r))
  else Ok (wrapNoopFilter (loader e after lag), st).

(** *** The stream client *)

Record streamclient : Type := mkStream {
  StreamFromHead : bool;
  Lag : Z;
  backoff : Z;
  after : string;
  prev : Z;
  buf : list Event
}.

(** [EventsTable.Stream]: a client with the given cursor string, options
    and backoff, an empty buffer and a zero cursor. *)
Definition Stream (afterRaw : string) (fromHead : bool) (lag bo : Z)
  : streamclient :=
  mkStream fromHead lag bo afterRaw 0 [].

(** One round of the polling loop as the outside world presents it: the
    environment of the loader call and what [wait] comes back with when
    it has to wait (nil after a notification or the timer, the context's
    error after a cancellation). *)
Record poll : Type := mkPoll {
  pollEnv : env;
  waitErr : option error
}.

(** The outside world of one [Recv] call: the context's error on entry,
    the answer of [getLatestID] and the rounds of polling to come. *)
Record recvEnv : Type := mkRecvEnv {
  ctxErr : option error;
  latestID : Z * option error;
  polls : list poll
}.

(** How a [Recv] call ends.  [StillWaiting] stands for a call that has
    used up every modelled round of polling and is still blocked. *)
Inductive recvResult : Type :=
| Returned (e : Event)
| Failed (x : error)
| StillWaiting
| Crashed.

Section RecvLoop.

Variable LS : Type.
Variable sloader : env -> LS -> Z -> Z -> outcome (LoadResult * LS).

(** [wait]: nothing to wait for with a zero backoff. *)
Definition wait (d : Z) (p : poll) : option error :=
  if d =? 0 then None else waitErr p.

(** The tail of [Recv]: pop the head of the buffer and move the cursor
    to it. *)
Definition popBuf (s : streamclient) (ls : LS)
  : recvResult * streamclient * LS :=
  match buf s with
  | e :: rest =>
      (Returned e,
       mkStream (StreamFromHead s) (Lag s) (backoff s) (after s) (IDInt e) rest,
       ls)
  | [] => (Crashed, s, ls)
  end.

(** The loop [for len(s.buf) == 0 { ... }], one element of [ps] per
    round. *)
Fixpoint recvLoop (ps : list poll) (s : streamclient) (ls : LS)
  : recvResult * streamclient * LS :=
  if negb (Z.of_nat (List.length (buf s)) =? 0) then popBuf s ls
  else
    match ps with
    | [] => (StillWaiting, s, ls)
    | p :: ps' =>
        match sloader (pollEnv p) ls (prev s) (Lag s) with
        | Panic => (Crashed, s, ls)
        | Ok ((el, next, Some x), ls') => (Failed x, s, ls')
        | Ok ((el, next, None), ls') =>
            let s' := mkStream (StreamFromHead s) (Lag s) (backoff s)
                        (after s) next el in
            if Z.of_nat (List.length el) >? 0 then popBuf s' ls'
            else
              match wait (backoff s') p with
              | Some x => (Failed x, s', ls')
              | None => recvLoop ps' s' ls'
              end
        end
    end.

Definition Recv (w : recvEnv) (s : streamclient) (ls : LS)
  : recvResult * streamclient * LS :=
  match ctxErr w with
  | Some x => (Failed x, s, ls)
  | None =>
      if StreamFromHead s then
        let '(id, er) := latestID w in
        let s1 := mkStream (StreamFromHead s) (Lag s) (backoff s) (after s)
                    id (buf s) in
        match er with
        | Some x => (Failed x, s1, ls)
        | None =>
            recvLoop (polls w)
              (mkStream false (Lag s1) (backoff s1) (after s1) (prev s1) (buf s1))
              ls
        end
      else if negb (String.eqb (after s) "") then
        let '(id, er) := Strconv.ParseInt (after s) in
        let s1 := mkStream (StreamFromHead s) (Lag s) (backoff s) (after s)
                    id (buf s) in
        match er with
        | Some _ => (Failed ErrInvalidIntID, s1, ls)
        | None =>
            recvLoop (polls w)
              (mkStream (StreamFromHead s1) (Lag s1) (backoff s1) "" (prev s1)
                 (buf s1))
              ls
        end
      else recvLoop (polls w) s ls
  end.

End RecvLoop.

(** *** The in-memory notifier *)

(** A channel of [struct{}] values: its capacity and the number of
    values waiting in its buffer. *)
Record chan : Type := mkChan {
  capacity : nat;
  queued : nat
}.

(** The channels allocated so far; a channel is named by its position. *)
Definition chanHeap : Type := list chan.

Record inmemNotifier : Type := mkInmem {
  listeners : list nat;
  heap : chanHeap
}.

Fixpoint setNth (i : nat) (c : chan) (h : chanHeap) : chanHeap :=
  match h, i with
  | [], _ => []
  | _ :: t, O => c :: t
  | x :: t, S j => x :: setNth j c t
  end.

(** The send statement [l <- struct{}{}] on its own: it goes through when
    the buffer has room and otherwise has to wait ([None]). *)
Definition chanSend (h : chanHeap) (l : nat) : option chanHeap :=
  match nth_error h l with
  | Some c =>
      if Nat.ltb (queued c) (capacity c)
      then Some (setNth l (mkChan (capacity c) (S (queued c))) h)
      else None
  | None => None
  end.

(** [select { case l <- struct{}{}: default: }]: the send when it can go
    through at once, else the default branch. *)
Definition selectSendDefault (h : chanHeap) (l : nat) : chanHeap :=
  match chanSend h l with
  | Some h' => h'
  | None => h
  end.

(** A statement of a goroutine either completes or blocks. *)
Inductive progress (A : Type) : Type :=
| Done (a : A)
| Blocked.
Arguments Done {A} a.
Arguments Blocked {A}.

(** The [range] loop of [Notify]. *)
Fixpoint notifyLoop (ls : list nat) (h : chanHeap) : progress chanHeap :=
  match ls with
  | [] => Done h
  | l :: rest => notifyLoop rest (selectSendDefault h l)
  end.

(** The same loop with plain sends, for comparison: it blocks at the
    first full channel. *)
Fixpoint blockingLoop (ls : list nat) (h : chanHeap) : progress chanHeap :=
  match ls with
  | [] => Done h
  | l :: rest =>
      match chanSend h l with
      | Some h' => blockingLoop rest h'
      | None => Blocked
      end
  end.

Definition Notify (n : inmemNotifier) : progress inmemNotifier :=
  match notifyLoop (listeners n) (heap n) with
  | Done h => Done (mkInmem [] h)
  | Blocked => Blocked
  end.

(** [C]: [make(chan struct{}, 1)], appended to the listeners. *)
Definition C (n : inmemNotifier) : nat * inmemNotifier :=
  let ch := List.length (heap n) in
  (ch, mkInmem (listeners n ++ [ch]) (heap n ++ [mkChan 1 0])).

(** *** The insert path *)

(** The values a [NotifyFunc] takes here: Go's nil, the package's
    [noopFunc] and the bound method [t.notifier.Notify]. *)
Inductive NotifyFunc : Type :=
| nilFunc
| noopFunc
| notifierNotify.

(** Calling a [NotifyFunc], as [defer notify()] does when the function
    returns: a nil function value panics. *)
Definition callNotify (f : NotifyFunc) (n : inmemNotifier)
  : outcome (progress inmemNotifier) :=
  match f with
  | nilFunc => Panic
  | noopFunc => Ok (Done n)
  | notifierNotify => Ok (Notify n)
  end.

(** [InsertWithMetadata]; [insertEvent] is the SQL insert, whose calls
    are recorded in the third component. *)
Definition InsertWithMetadata
  (insertEvent : string -> Z -> list Z -> option error)
  (foreignID : string) (typ : Z) (metadata : list Z)
  : NotifyFunc * option error * list (string * Z) :=
  if isNoop foreignID typ
  then (nilFunc, Some (ErrNew "inserting invalid noop event"), [])
  else
    match insertEvent foreignID typ metadata with
    | Some x => (noopFunc, Some x, [(foreignID, typ)])
    | None => (notifierNotify, None, [(foreignID, typ)])
    end.

Definition Insert (insertEvent : string -> Z -> list Z -> option error)
  (foreignID : string) (typ : Z)
  : NotifyFunc * option error * list (string * Z) :=
  InsertWithMetadata insertEvent foreignID typ [].

End Rsql.

(** ** Properties the statements below are written with *)

Module Props.

Import Rcache.

(** Adjacent ids differ by one, the sum taken in [int64] as [readThrough]
    takes it. *)
Fixpoint consecutive (l : list Event) : Prop :=
  match l with
  | a :: (b :: _) as t => IDInt b = add64 (IDInt a) 1 /\ consecutive t
  | _ => True
  end.

(** The ids of a slice of events are [int64] values. *)
Definition idsInt64 (l : list Event) : Prop :=
  Forall (fun e => in_int64 (IDInt e)) l.

(** The cache states a table can be in: a cache starts empty and changes
    only through completed [Load] calls, whatever the wrapped loader
    returns, whatever the cursor, the lag and the time. *)
Inductive reachable : rcache -> Prop :=
| reach_new : forall lim, reachable (mkRCache [] lim)
| reach_load : forall e c m after lag r,
    reachable c -> Load e c m after lag = Ok r -> reachable (rc r).

(** A request misses the cache: its first id lies outside the cached
    range. *)
Definition missesCache (c : rcache) (after : Z) : Prop :=
  add64 after 1 < headUnsafe c \/ add64 after 1 > tailUnsafe c.

(** [pre] is the longest prefix of [l] whose events all satisfy [P]. *)
Definition maximalPrefix (P : Event -> Prop) (pre l : list Event) : Prop :=
  exists rest,
    l = pre ++ rest /\ Forall P pre /\
    match rest with
    | [] => True
    | x :: _ => ~ P x
    end.

(** The ids of [l] increase strictly and all lie above [c]. *)
Fixpoint ascendingFrom (c : Z) (l : list Event) : Prop :=
  match l with
  | [] => True
  | e :: t => c < IDInt e /\ ascendingFrom (IDInt e) t
  end.

(** What a stream client needs from its loader: a batch lies above the
    cursor in increasing order, and an empty batch does not move the
    cursor backwards. *)
Definition loaderContract {LS : Type}
  (sloader : env -> LS -> Z -> Z -> outcome (LoadResult * LS)) : Prop :=
  forall e ls after lag el next ls',
    sloader e ls after lag = Ok ((el, next, None), ls') ->
    ascendingFrom after el /\ (el = [] -> after <= next).

(** A client past the initialisation of its cursor whose buffer lies
    above its cursor. *)
Definition clientReady (s : Rsql.streamclient) : Prop :=
  Rsql.StreamFromHead s = false /\ Rsql.after s = EmptyString /\
  ascendingFrom (Rsql.prev s) (Rsql.buf s).

(** Every byte of the string is a decimal digit. *)
Fixpoint allDigits (s : string) : bool :=
  match s with
  | EmptyString => true
  | String c t => Strconv.isDigit c && allDigits t
  end.

(** The number a string of decimal digits denotes, read after the digits
    already accumulated in [n]. *)
Fixpoint digitsValue (n : Z) (s : string) : Z :=
  match s with
  | EmptyString => n
  | String c t => digitsValue (n * 10 + Strconv.digitVal c) t
  end.

End Props.

(** ** Concrete tables, loaders and clients used to exercise the model *)

Module Examples.

Import Rcache.

(** An ordinary event of type 1 for the entity ["x"]. *)
Definition ev (id ts : Z) : Event := mkEvent id ts 1 "x" [].

(** Modelled from the spec: the base loader ([makeBaseLoader] is not
    among the available sources) over a fixed list of rows in id order,
    per its contract: the rows after the cursor, older than [now - lag]
    when there is a lag, and the id of the last one (or the cursor when
    there is none) as next cursor. *)
Definition tableLoader (rows : list Event) (now_ : Z) : Loader :=
  fun after lag =>
    let el := filter (fun e => (IDInt e >? after) &&
                               ((lag =? 0) || (Timestamp e <? now_ - lag)))
                     rows in
    match el with
    | [] => ([], after, None)
    | _ => (el, getLastID el, None)
    end.

Definition envAt (now_ : Z) (rows : list Event) : env :=
  mkEnv now_ (tableLoader rows now_).

(** A loader that answers every call with the same result. *)
Definition constLoader (r : LoadResult) : Loader := fun _ _ => r.

Definition m0 : metrics := mkMetrics 0 0.

(** Two committed rows: id 1 at instant 10 and id 2 at instant 95. *)
Definition rows12 : list Event := [ev 1 10; ev 2 95].

(** The cache once a reader without lag has read both rows. *)
Definition cache12 : rcache := mkRCache rows12 defaultRCacheLimit.

(** A reader with a lag of 10 and a backoff of 5 that starts from the
    beginning of a table with the cache enabled. *)
Definition laggingClient : Rsql.streamclient := Rsql.Stream "" false 10 5.

(** Its first [Recv], at instant 100: one round of polling. *)
Definition firstRecv : Rsql.recvEnv :=
  Rsql.mkRecvEnv None (0, None) [Rsql.mkPoll (envAt 100 rows12) None].

(** Its second [Recv]: a round at instant 101, a wait that ends without
    error, and a round at instant 102. *)
Definition secondRecv : Rsql.recvEnv :=
  Rsql.mkRecvEnv None (0, None)
    [Rsql.mkPoll (envAt 101 rows12) None; Rsql.mkPoll (envAt 102 rows12) None].

(** Four committed rows, all long visible. *)
Definition rows1234 : list Event := [ev 1 10; ev 2 20; ev 3 30; ev 4 40].

(** A reader created with the cursor ["1"] and the from-head option, on
    a table without cache. *)
Definition headClient : Rsql.streamclient := Rsql.Stream "1" true 0 5.

(** Its first [Recv]: the latest id is 3, then row 4 is polled. *)
Definition headFirstRecv : Rsql.recvEnv :=
  Rsql.mkRecvEnv None (3, None) [Rsql.mkPoll (envAt 100 rows1234) None].

(** Its second [Recv]: one round of polling. *)
Definition headSecondRecv : Rsql.recvEnv :=
  Rsql.mkRecvEnv None (4, None) [Rsql.mkPoll (envAt 101 rows1234) None].

(** A notifier with two registered listeners, the first of which already
    holds a value in its one-slot buffer. *)
Definition busyNotifier : Rsql.inmemNotifier :=
  Rsql.mkInmem [0%nat; 1%nat] [Rsql.mkChan 1 1; Rsql.mkChan 1 0].

End Examples.

(** ** Properties of the cache beyond the id invariant *)

Module CacheProps.

Import Rcache Props.

(** A cache as Go can hold it and as [Load] keeps it: consecutive ids
    that are [int64] values, in a slice whose length is an [int]. *)
Definition wellFormed (c : rcache) : Prop :=
  consecutive (cache c) /\ idsInt64 (cache c) /\ lenUnsafe c <= max_int64.

(** The events the wrapped loader hands back for a request. *)
Definition batchOf (e : env) (after lag : Z) : list Event :=
  fst (fst (loader e after lag)).

End CacheProps.

(** ** Sequences of [Recv] calls *)

Module StreamProps.

Import Rcache Rsql Props.

(** One [Recv] call per element of [ws], each on the state the previous
    one left, with the results in order. *)
Fixpoint recvMany {LS : Type}
  (sloader : env -> LS -> Z -> Z -> outcome (LoadResult * LS))
  (ws : list recvEnv) (s : streamclient) (ls : LS)
  : list recvResult * streamclient * LS :=
  match ws with
  | [] => ([], s, ls)
  | w :: ws' =>
      let '(r, s1, ls1) := Recv LS sloader w s ls in
      let '(rs, s2, ls2) := recvMany sloader ws' s1 ls1 in
      (r :: rs, s2, ls2)
  end.

(** The events a sequence of results delivered, in order. *)
Fixpoint returned (rs : list recvResult) : list Event :=
  match rs with
  | [] => []
  | Returned e :: t => e :: returned t
  | _ :: t => returned t
  end.

(** Each id is greater than the one before. *)
Definition strictlyIncreasing (l : list Event) : Prop :=
  match l with
  | [] => True
  | e :: t => ascendingFrom (IDInt e) t
  end.

(** A client that has not delivered yet: nothing buffered, and made with
    the from-head option or with a cursor string, not both. *)
Definition clientStarting (s : streamclient) : Prop :=
  buf s = [] /\ (StreamFromHead s = false \/ after s = EmptyString).

(** The loader returns from every call. *)
Definition loaderNeverPanics {LS : Type}
  (sloader : env -> LS -> Z -> Z -> outcome (LoadResult * LS)) : Prop :=
  forall e ls after lag, sloader e ls after lag <> Panic.

(** The context is live at the start of the call. *)
Definition liveCtx (w : recvEnv) : Prop := ctxErr w = None.

End StreamProps.

(** ** More concrete inputs *)

Module MoreExamples.

Import Rcache Rsql Examples.

(** The loader of a table without cache over the two rows of
    [rows12], whatever the environment's own loader. *)
Definition rows12Loader (e : env) (ls : loaderState) (after lag : Z)
  : outcome (LoadResult * loaderState) :=
  buildLoader false (envAt (now e) rows12) ls after lag.

(** A [Recv] whose only poll finds the database down. *)
Definition dbDownRecv : recvEnv :=
  mkRecvEnv None (0, None)
    [mkPoll (mkEnv 100 (constLoader ([], 0, Some (ErrExternal "db down")))) None].

(** A [Recv] under a cancelled context. *)
Definition cancelledRecv : recvEnv :=
  mkRecvEnv (Some (ErrCtx "context canceled")) (0, None) [].

End MoreExamples.

(** ** Counting separators *)

Module CursorProps.

(** The number of ['|'] bytes in a string. *)
Fixpoint countPipes (s : string) : nat :=
  match s with
  | EmptyString => 0
  | String c t => (if Ascii.eqb c "|" then 1 else 0) + countPipes t
  end.

End CursorProps.

(** ** package rblob: the stream over the blobs of a bucket *)

Module RblobStream.

Import Rblob.

(** Errors as the stream tells them apart: [io.EOF] and the rest. *)
Inductive ioErr : Type :=
| EOF
| Err (x : error).

(** A byte slice; [None] where Go has a nil slice. *)
Definition payload : Type := list Z.

(** What one call of [Decoder.Decode] gives: a record or an error. *)
Inductive decodeOut : Type :=
| Rec (p : payload)
| Bad (x : error).

(** A decoder is what it has yet to give; after that it gives
    [io.EOF]. *)
Definition Decoder : Type := list decodeOut.

Definition Decode (d : Decoder) : option payload * option ioErr * Decoder :=
  match d with
  | [] => (None, Some EOF, [])
  | Rec p :: t => (Some p, None, t)
  | Bad x :: t => (None, Some (Err x), t)
  end.

(** A blob as the stream meets it: its key and modification time,
    whether [NewReader] and the decoder function fail on it, and what
    its decoder gives. *)
Record object : Type := mkObject {
  okey : string;
  modTime : Z;
  openErr : option error;
  decoderErr : option error;
  outs : Decoder
}.

(** A bucket: the objects in the order the list iterator yields them,
    and the error the iterator ends with, if not [io.EOF]. *)
Record bucket : Type := mkBucket {
  objects : list object;
  listErr : option error
}.

(** The error of [NewReader] for a key the bucket does not hold. *)
Definition notFound : error := ErrExternal "blob not found".

(** [bucket.NewReader(ctx, key, nil)]. *)
Fixpoint findObject (objs : list object) (key : string) : option object :=
  match objs with
  | [] => None
  | o :: t => if String.eqb (okey o) key then Some o else findObject t key
  end.

Definition NewReader (bk : bucket) (key : string) : error + object :=
  match findObject (objects bk) key with
  | None => inl notFound
  | Some o =>
      match openErr o with
      | Some x => inl x
      | None => inr o
      end
  end.

(** The loop of [getNextKey] over the iterator: the first key greater
    than [prev], else the error the iterator ends with.  (The
    [StartAfter] hint only skips keys this test skips too.) *)
Fixpoint iterNext (objs : list object) (ending : ioErr) (prev : string)
  : string * option ioErr :=
  match objs with
  | [] => (EmptyString, Some ending)
  | o :: t =>
      if String.ltb prev (okey o) then (okey o, None)
      else iterNext t ending prev
  end.

Definition getNextKey (bk : bucket) (prev : string) : string * option ioErr :=
  iterNext (objects bk)
    (match listErr bk with Some x => Err x | None => EOF end) prev.

(** The [stream] struct; the context, the bucket and the decoder
    function belong to the environment.  The zero time is instant 0. *)
Record stream : Type := mkBlobStream {
  backoff : Z;
  next : option payload;
  cursor_ : cursor;
  blobTime : Z;
  decoder : option Decoder
}.

(** The [reflex.Event] a blob stream builds. *)
Record Event : Type := mkBlobEvent {
  ID : string;
  ReflexType : Z;
  ForeignID : string;
  Timestamp : Z;
  MetaData : option payload
}.

(** How a step of the stream ends: with a value, with an error, asleep
    for want of a next blob ([time.Sleep], then another look, for as long
    as the bucket stays as it is), or in a panic (a call on a nil
    decoder). *)
Inductive step (A : Type) : Type :=
| Got (a : A)
| Fails (x : error)
| Sleeps
| Panics
| OutOfFuel.
Arguments Got {A} a.
Arguments Fails {A} x.
Arguments Sleeps {A}.
Arguments Panics {A}.
Arguments OutOfFuel {A}.

Definition isNil (p : option payload) : bool :=
  match p with None => true | Some _ => false end.

(** [loadNextBlob]: the result and the stream as the call leaves it. *)
Definition loadNextBlob (bk : bucket) (s : stream) : step unit * stream :=
  match getNextKey bk (Key (cursor_ s)) with
  | (_, Some EOF) => (Sleeps, s)
  | (_, Some (Err x)) => (Fails x, s)
  | (nextKey, None) =>
      match NewReader bk nextKey with
      | inl x => (Fails x, s)
      | inr o =>
          match decoderErr o with
          | Some x => (Fails x, s)
          | None =>
              let '(p, er, d) := Decode (outs o) in
              match er with
              | Some (Err x) =>
                  (Fails x,
                   mkBlobStream (backoff s) p (cursor_ s) (blobTime s) (decoder s))
              | _ =>
                  (Got tt,
                   mkBlobStream (backoff s) p
                     (mkCursor nextKey (-1) (isNil p)) (modTime o) (Some d))
              end
          end
      end
  end.

(** The loop of [loadCurrentBlob] that reads up to the cursor, with the
    counter [i]. *)
Fixpoint gobble (d : Decoder) (i target : Z) : error + Decoder :=
  match d with
  | [] => inl (ErrNew "cursor out of range")
  | Bad x :: _ => inl x
  | Rec _ :: t => if i =? target then inr t else gobble t (add64 i 1) target
  end.

Definition loadCurrentBlob (bk : bucket) (s : stream) : step unit * stream :=
  if negb (blobTime s =? 0)
  then (Fails (ErrNew "loading current while time set"), s)
  else
    match NewReader bk (Key (cursor_ s)) with
    | inl x => (Fails x, s)
    | inr o =>
        match decoderErr o with
        | Some x => (Fails x, s)
        | None =>
            match gobble (outs o) 0 (Offset (cursor_ s)) with
            | inl x => (Fails x, s)
            | inr d =>
                let '(p, er, d') := Decode d in
                let s' := mkBlobStream (backoff s) p (cursor_ s) (modTime o)
                            (Some d') in
                match er with
                | Some EOF => (Fails (ErrNew "current cursor is last"), s')
                | Some (Err x) => (Fails x, s')
                | None => (Got tt, s')
                end
            end
        end
    end.

(** The loop at the head of [Recv]: load next blobs while the cursor is
    empty or at the end of a blob. *)
Fixpoint seekBlob (fuel : nat) (bk : bucket) (s : stream) : step unit * stream :=
  if String.eqb (Key (cursor_ s)) "" || Last (cursor_ s) then
    match fuel with
    | O => (OutOfFuel, s)
    | S f =>
        match loadNextBlob bk s with
        | (Got _, s') => seekBlob f bk s'
        | r => r
        end
    end
  else (Got tt, s).

(** The rest of [Recv], once a decoder is there. *)
Definition deliver (s : stream) (d : Decoder) : step Event * stream :=
  let '(temp, er, d') := Decode d in
  match er with
  | Some (Err x) =>
      (Fails (ErrWrap x "decode error"),
       mkBlobStream (backoff s) (next s) (cursor_ s) (blobTime s) (Some d'))
  | _ =>
      let c := mkCursor (Key (cursor_ s)) (add64 (Offset (cursor_ s)) 1)
                 (isNil temp) in
      (Got (mkBlobEvent (String_ c) 0 "" (blobTime s) (next s)),
       mkBlobStream (backoff s) temp c (blobTime s) (Some d'))
  end.

(** [stream.Recv]; every pass of its first loop moves to a greater key
    of the listing, so one pass per object and one more are enough. *)
Definition Recv (bk : bucket) (s : stream) : step Event * stream :=
  match seekBlob (S (List.length (objects bk))) bk s with
  | (Got _, s1) =>
      match (match decoder s1 with
             | None => loadCurrentBlob bk s1
             | Some _ => (Got tt, s1)
             end) with
      | (Got _, s2) =>
          match decoder s2 with
          | Some d => deliver s2 d
          | None => (Panics, s2)
          end
      | (Fails x, s2) => (Fails x, s2)
      | (Sleeps, s2) => (Sleeps, s2)
      | (Panics, s2) => (Panics, s2)
      | (OutOfFuel, s2) => (OutOfFuel, s2)
      end
  | (Fails x, s1) => (Fails x, s1)
  | (Sleeps, s1) => (Sleeps, s1)
  | (Panics, s1) => (Panics, s1)
  | (OutOfFuel, s1) => (OutOfFuel, s1)
  end.

(** [Bucket.Stream]: no options yet, a cursor that parses, and a stream
    that has loaded nothing. *)
Definition Stream (bo : Z) (after : string) (nopts : nat) : error + stream :=
  if Nat.ltb 0 nopts then inl (ErrNew "options not supported yet")
  else
    match parseCursor after with
    | (_, Some x) => inl x
    | (c, None) => inr (mkBlobStream bo None c 0 None)
    end.

End RblobStream.

(** ** Properties of the blob stream are written with these *)

Module BlobProps.

Import Rblob RblobStream.

(** An object that opens, decodes, and gives the records [recs] and
    then [io.EOF]. *)
Definition wellBehaved (o : object) (recs : list payload) : Prop :=
  openErr o = None /\ decoderErr o = None /\ outs o = map Rec recs.

(** Record number [i] of a blob, nil outside of it. *)
Definition recAt (recs : list payload) (i : Z) : option payload :=
  if i <? 0 then None else nth_error recs (Z.to_nat i).

(** The stream right after it delivered record [i] of the object [o]
    (with [i = -1]: right after it loaded the object): record [i + 1] is
    fetched ahead, the cursor is at [i], and the decoder stands behind
    record [i + 1]. *)
Definition steady (bo : Z) (o : object) (recs : list payload) (i : Z) : stream :=
  mkBlobStream bo (recAt recs (i + 1))
    (mkCursor (okey o) i (isNil (recAt recs (i + 1))))
    (modTime o)
    (Some (map Rec (skipn (Z.to_nat (i + 2)) recs))).

(** The event for record [i] of the object [o]. *)
Definition eventOf (o : object) (recs : list payload) (i : Z) : Event :=
  mkBlobEvent
    (String_ (mkCursor (okey o) i (isNil (recAt recs (i + 1)))))
    0 EmptyString (modTime o) (recAt recs i).

(** Two calls end alike: with the same event, error or sleep, and after
    an event with the same stream. *)
Definition sameDelivery (r1 r2 : step Event * stream) : Prop :=
  fst r1 = fst r2 /\ (forall e, fst r1 = Got e -> snd r1 = snd r2).

(** [n] calls of [Recv] in a row that all deliver: the events and the
    stream at the end; [None] as soon as one does not deliver. *)
Fixpoint recvN (n : nat) (bk : bucket) (s : stream)
  : option (list Event * stream) :=
  match n with
  | O => Some ([], s)
  | S m =>
      match Recv bk s with
      | (Got e, s1) =>
          match recvN m bk s1 with
          | Some (es, s2) => Some (e :: es, s2)
          | None => None
          end
      | _ => None
      end
  end.

(** The number of listed objects whose key is greater than [k]. *)
Fixpoint keysAbove (objs : list object) (k : string) : nat :=
  match objs with
  | [] => 0
  | o :: t => (if String.ltb k (okey o) then 1 else 0) + keysAbove t k
  end.

End BlobProps.

(** ** A concrete bucket *)

Module BlobExamples.

Import Rblob RblobStream BlobProps.

(** A blob with three records and a later one with a single record. *)
Definition blobA : object :=
  mkObject "2024/a" 700 None None [Rec [1]; Rec [2]; Rec [3]].

Definition blobB : object :=
  mkObject "2024/b" 800 None None [Rec [9]].

Definition recsA : list payload := [[1]; [2]; [3]].

Definition recsB : list payload := [[9]].

Definition twoBlobs : bucket := mkBucket [blobA; blobB] None.

End BlobExamples.

(* ===================================================================== *)
(** * Part II: the properties                                             *)
(* ===================================================================== *)

Import Rcache Props.

(** ** Arithmetic of [int64] *)

Lemma wrap64_id (z : Z) : in_int64 z -> wrap64 z = z.
Proof.
  unfold in_int64, min_int64, max_int64, wrap64.
  change (2 ^ 63) with 9223372036854775808.
  change (2 ^ 64) with 18446744073709551616.
  intros H. rewrite Z.mod_small; lia.
Qed.

Lemma wrap64_range (z : Z) : in_int64 (wrap64 z).
Proof.
  unfold in_int64, min_int64, max_int64, wrap64.
  change (2 ^ 63) with 9223372036854775808.
  change (2 ^ 64) with 18446744073709551616.
  pose proof (Z.mod_pos_bound (z + 9223372036854775808) 18446744073709551616).
  lia.
Qed.

Lemma wrap64_cases (z : Z) :
  exists k, wrap64 z = z + k * 2 ^ 64 /\ in_int64 (wrap64 z).
Proof.
  exists (- ((z + 2 ^ 63) / 2 ^ 64)). split; [|apply wrap64_range].
  unfold wrap64.
  pose proof (Z.div_mod (z + 2 ^ 63) (2 ^ 64)) as H.
  change (2 ^ 63) with 9223372036854775808 in *.
  change (2 ^ 64) with 18446744073709551616 in *.
  lia.
Qed.

(** ** The read-through cache *)

Section CacheFacts.

Lemma hasNonConsec_false (res : list Event) :
  hasNonConsec res = false <-> consecutive res.
Proof.
  induction res as [|a [|b t] IH]; simpl; try tauto.
  destruct (Z.eqb_spec (IDInt b) (add64 (IDInt a) 1)); simpl.
  - simpl in IH. rewrite IH. tauto.
  - split; [discriminate | tauto].
Qed.

Lemma hasNonConsec_true (res : list Event) :
  hasNonConsec res = true <-> ~ consecutive res.
Proof.
  rewrite <- hasNonConsec_false. destruct (hasNonConsec res); split; congruence.
Qed.

Lemma consecutive_tail (a : Event) (l : list Event) :
  consecutive (a :: l) -> consecutive l.
Proof. destruct l; simpl; tauto. Qed.

Lemma consecutive_skipn (n : nat) (l : list Event) :
  consecutive l -> consecutive (skipn n l).
Proof.
  revert l. induction n as [|n IH]; intros l H; [exact H|].
  destruct l as [|a l]; [exact I|]. simpl. apply IH.
  eapply consecutive_tail; eassumption.
Qed.

Lemma consecutive_app (l1 l2 : list Event) :
  consecutive l1 -> consecutive l2 ->
  (forall a b, l1 <> [] -> hd_error l2 = Some b -> a = last l1 zeroEvent ->
               IDInt b = add64 (IDInt a) 1) ->
  consecutive (l1 ++ l2).
Proof.
  induction l1 as [|a [|b t] IH]; intros H1 H2 Hj.
  - exact H2.
  - simpl. destruct l2 as [|b t]; [exact I|]. split; [|exact H2].
    apply Hj; [discriminate | reflexivity | reflexivity].
  - destruct H1 as [Hab H1]. split; [exact Hab|].
    apply IH; [exact H1 | exact H2 |].
    intros x y _ Hy Hx. apply Hj; [discriminate | exact Hy | exact Hx].
Qed.

Lemma consecutive_nth (l : list Event) :
  consecutive l <->
  forall i, (S i < List.length l)%nat ->
            IDInt (nth (S i) l zeroEvent) = add64 (IDInt (nth i l zeroEvent)) 1.
Proof.
  induction l as [|a [|b t] IH].
  - simpl. split; [intros _ i H; lia | tauto].
  - simpl. split; [intros _ i H; lia | tauto].
  - split.
    + intros [Hab H] i Hi. destruct i as [|i]; [exact Hab|].
      apply (proj1 IH H i). simpl in *. lia.
    + intros H. split.
      * apply (H 0%nat). simpl. lia.
      * apply (proj2 IH). intros i Hi. apply (H (S i)). simpl in *. lia.
Qed.

End CacheFacts.

Section CacheInvariant.

Lemma maybeUpdateUnsafe_consecutive (c : rcache) (el : list Event) :
  consecutive (cache c) -> consecutive el ->
  consecutive (cache (maybeUpdateUnsafe c el)).
Proof.
  intros Hc Hel. unfold maybeUpdateUnsafe.
  destruct el as [|e0 el']; [exact Hc|].
  destruct (emptyUnsafe c) eqn:Hempty; [exact Hel|].
  destruct (add64 (tailUnsafe c) 1 <? IDInt e0); [exact Hel|].
  destruct (Z.eqb_spec (add64 (tailUnsafe c) 1) (IDInt e0)) as [Heq|]; [|exact Hc].
  simpl. apply consecutive_app; [exact Hc | exact Hel |].
  intros a b Hne Hb Ha. simpl in Hb. injection Hb as <-. subst a.
  rewrite <- Heq. unfold tailUnsafe. rewrite Hempty. reflexivity.
Qed.

Lemma maybeTrimUnsafe_consecutive (c c' : rcache) :
  consecutive (cache c) -> maybeTrimUnsafe c = Ok c' -> consecutive (cache c').
Proof.
  intros Hc. unfold maybeTrimUnsafe.
  destruct (lenUnsafe c >? limit c).
  - destruct ((0 <=? sub64 (lenUnsafe c) (limit c)) &&
              (sub64 (lenUnsafe c) (limit c) <=? lenUnsafe c)); [|discriminate].
    intros H. injection H as <-. simpl. apply consecutive_skipn. exact Hc.
  - intros H. injection H as <-. exact Hc.
Qed.

(** The cache after a completed [readThrough] is the old one or the old
    one updated with a validated batch and trimmed. *)
Lemma readThrough_cache (e : env) (c : rcache) (m : metrics) (after lag : Z)
  (r : LoadRet) :
  readThrough e c m after lag = Ok r ->
  rc r = c \/
  exists res, consecutive res /\
              maybeTrimUnsafe (maybeUpdateUnsafe c res) = Ok (rc r).
Proof.
  unfold readThrough.
  destruct (maybeHitUnsafe c (now e) (add64 after 1) lag) as [[hit ok]|];
    simpl; [|discriminate].
  destruct ok.
  { intros H. injection H as <-. left. reflexivity. }
  destruct (loader e after lag) as [[res next] er].
  destruct er as [x|].
  { intros H. injection H as <-. left. reflexivity. }
  destruct (Z.of_nat (List.length res) =? 0).
  { intros H. injection H as <-. left. reflexivity. }
  destruct (hasNonConsec res) eqn:Hcons.
  { intros H. injection H as <-. left. reflexivity. }
  destruct (negb (next =? getLastID res)).
  { intros H. injection H as <-. left. reflexivity. }
  destruct (maybeTrimUnsafe (maybeUpdateUnsafe c res)) as [c'|] eqn:Htrim;
    simpl; [|discriminate].
  intros H. injection H as <-. right. exists res. split.
  - apply hasNonConsec_false. exact Hcons.
  - exact Htrim.
Qed.

Lemma Load_cache (e : env) (c : rcache) (m : metrics) (after lag : Z)
  (r : LoadRet) :
  Load e c m after lag = Ok r ->
  rc r = c \/
  exists res, consecutive res /\
              maybeTrimUnsafe (maybeUpdateUnsafe c res) = Ok (rc r).
Proof.
  unfold Load.
  destruct (maybeHitUnsafe c (now e) (add64 after 1) lag) as [[hit ok]|];
    simpl; [|discriminate].
  destruct ok.
  - intros H. injection H as <-. left. reflexivity.
  - apply readThrough_cache.
Qed.

Lemma Load_consecutive (e : env) (c : rcache) (m : metrics) (after lag : Z)
  (r : LoadRet) :
  consecutive (cache c) -> Load e c m after lag = Ok r ->
  consecutive (cache (rc r)).
Proof.
  intros Hc HL. destruct (Load_cache _ _ _ _ _ _ HL) as [-> | [res [Hres Ht]]].
  - exact Hc.
  - eapply maybeTrimUnsafe_consecutive; [|exact Ht].
    apply maybeUpdateUnsafe_consecutive; assumption.
Qed.

Lemma reachable_consecutive (c : rcache) :
  reachable c -> consecutive (cache c).
Proof.
  induction 1 as [lim | e c m after lag r _ IH HL].
  - exact I.
  - eapply Load_consecutive; eassumption.
Qed.

(** C3.  After every completed [Load] on a cache that started empty, any
    two adjacent cached events have ids that differ by one:
    [cache[i+1].id == cache[i].id + 1], the sum being Go's [int64] sum;
    where [cache[i].id] is an [int64] below the largest one, the sum is
    the plain integer sum. *)
Theorem cache_ids_consecutive (c : rcache) (i : nat) :
  reachable c ->
  (S i < List.length (cache c))%nat ->
  IDInt (nth (S i) (cache c) zeroEvent)
    = add64 (IDInt (nth i (cache c) zeroEvent)) 1 /\
  (in_int64 (IDInt (nth i (cache c) zeroEvent)) ->
   IDInt (nth i (cache c) zeroEvent) < max_int64 ->
   IDInt (nth (S i) (cache c) zeroEvent)
     = IDInt (nth i (cache c) zeroEvent) + 1).
Proof.
  intros Hr Hi.
  pose proof (proj1 (consecutive_nth (cache c)) (reachable_consecutive c Hr) i Hi)
    as H.
  split; [exact H|].
  intros Hin Hlt. rewrite H. unfold add64. apply wrap64_id.
  unfold in_int64, min_int64, max_int64 in *. lia.
Qed.

End CacheInvariant.

Section CacheLoad.

Import Examples.

Lemma cache12_reachable : reachable cache12.
Proof.
  change cache12 with
    (rc (mkLoadRet rows12 2 None cache12 (mkMetrics 0 1) [(0, 0)])).
  apply (reach_load (envAt 100 rows12) newRCache m0 0 0).
  - apply reach_new.
  - vm_compute. reflexivity.
Qed.

Lemma cache_ids_consecutive_witness :
  IDInt (nth 1 (cache cache12) zeroEvent)
    = add64 (IDInt (nth 0 (cache cache12) zeroEvent)) 1 /\
  (in_int64 (IDInt (nth 0 (cache cache12) zeroEvent)) ->
   IDInt (nth 0 (cache cache12) zeroEvent) < max_int64 ->
   IDInt (nth 1 (cache cache12) zeroEvent)
     = IDInt (nth 0 (cache cache12) zeroEvent) + 1).
Proof.
  apply (cache_ids_consecutive cache12 0).
  - exact cache12_reachable.
  - simpl. lia.
Defined.

(** C9.  On an empty cache [headUnsafe] and [tailUnsafe] are both 0, so a
    [Load] with [after = -1] passes the range check as a hit: it returns
    no events, next cursor 0 and no error, counts a hit and never calls
    the wrapped loader. *)
Theorem empty_cache_hit_at_minus_one (e : env) (lim : Z) (m : metrics) (lag : Z) :
  headUnsafe (mkRCache [] lim) = 0 /\
  tailUnsafe (mkRCache [] lim) = 0 /\
  maybeHitUnsafe (mkRCache [] lim) (now e) (add64 (-1) 1) lag = Ok ([], true) /\
  Load e (mkRCache [] lim) m (-1) lag =
    Ok (mkLoadRet [] 0 None (mkRCache [] lim)
          (mkMetrics (S (rcacheHitsCounter m)) (rcacheMissCounter m)) []).
Proof.
  assert (Hhit : maybeHitUnsafe (mkRCache [] lim) (now e) (add64 (-1) 1) lag
                 = Ok ([], true)).
  { unfold maybeHitUnsafe. change (add64 (-1) 1) with 0.
    change (headUnsafe (mkRCache [] lim)) with 0.
    change (tailUnsafe (mkRCache [] lim)) with 0.
    change (lenUnsafe (mkRCache [] lim)) with 0.
    change (sub64 0 0) with 0.
    destruct (lag =? 0); reflexivity. }
  repeat split; try reflexivity; try exact Hhit.
  unfold Load. rewrite Hhit. reflexivity.
Qed.

(** C1 (the code departs from the claim).  The cache holds ids 1 and 2,
    the second committed five units ago.  A reader with a lag of 10 whose
    cursor is 1 gets a hit with no events, no error and next cursor 0,
    not its cursor 1. *)
Theorem empty_hit_returns_zero_cursor :
  Load (envAt 100 rows12) cache12 m0 1 10 =
    Ok (mkLoadRet [] 0 None cache12 (mkMetrics 1 0) []) /\
  0 <> 1.
Proof. split; [vm_compute; reflexivity | discriminate]. Qed.

(** On the read-through path an empty batch does hand the cursor back. *)
Lemma readThrough_empty_keeps_cursor (e : env) (c : rcache) (m : metrics)
  (after lag next : Z) :
  missesCache c after ->
  loader e after lag = ([], next, None) ->
  Load e c m after lag =
    Ok (mkLoadRet [] after None c
          (mkMetrics (rcacheHitsCounter m) (S (rcacheMissCounter m)))
          [(after, lag)]).
Proof.
  intros Hmiss Hld.
  assert (Hm : maybeHitUnsafe c (now e) (add64 after 1) lag = Ok ([], false)).
  { unfold maybeHitUnsafe. unfold missesCache in Hmiss.
    destruct (Z.ltb_spec (add64 after 1) (headUnsafe c)); [reflexivity|].
    destruct (Z.gtb_spec (add64 after 1) (tailUnsafe c)); [reflexivity|]. lia. }
  unfold Load. rewrite Hm. simpl. unfold readThrough. rewrite Hm. simpl.
  rewrite Hld. reflexivity.
Qed.

End CacheLoad.

Section ReadThroughValidation.

Import Examples.

Lemma maybeHitUnsafe_miss (c : rcache) (now_ after lag : Z) :
  missesCache c after ->
  maybeHitUnsafe c now_ (add64 after 1) lag = Ok ([], false).
Proof.
  unfold maybeHitUnsafe, missesCache. intros Hmiss.
  destruct (Z.ltb_spec (add64 after 1) (headUnsafe c)); [reflexivity|].
  destruct (Z.gtb_spec (add64 after 1) (tailUnsafe c)); [reflexivity|]. lia.
Qed.

(** C4 as stated fails: the batch with ids 1 and 3 and a reported next
    cursor 5 has a next cursor that differs from its last id, yet [Load]
    fails with [ErrConsecEvent], not with [ErrNextCursorMismatch]. *)
Lemma nonconsecutive_batch_hides_cursor_mismatch :
  let bad := constLoader ([ev 1 10; ev 3 10], 5, None) in
  5 <> getLastID [ev 1 10; ev 3 10] /\
  missesCache newRCache 0 /\
  Load (mkEnv 100 bad) newRCache m0 0 0 =
    Ok (mkLoadRet [] 0 (Some ErrConsecEvent) newRCache (mkMetrics 0 1) [(0, 0)]) /\
  Some ErrConsecEvent <> Some (ErrWrap ErrNextCursorMismatch "").
Proof.
  simpl. repeat split.
  - vm_compute. discriminate.
  - right. vm_compute. reflexivity.
  - discriminate.
Qed.

(** C4, amended.  On read-through of a non-empty batch: when the ids are
    not consecutive [Load] fails with [ErrConsecEvent]; when they are
    consecutive and the reported next cursor differs from the last id,
    [Load] fails with the wrapped [ErrNextCursorMismatch].  Either way it
    returns no events and a zero cursor, leaves the cache as it was and
    has called the wrapped loader once. *)
Theorem readThrough_rejects_invalid_batch (e : env) (c : rcache) (m : metrics)
  (after lag : Z) (res : list Event) (next : Z) :
  missesCache c after ->
  loader e after lag = (res, next, None) ->
  res <> [] ->
  (~ consecutive res ->
   Load e c m after lag =
     Ok (mkLoadRet [] 0 (Some ErrConsecEvent) c
           (mkMetrics (rcacheHitsCounter m) (S (rcacheMissCounter m)))
           [(after, lag)])) /\
  (consecutive res -> next <> getLastID res ->
   Load e c m after lag =
     Ok (mkLoadRet [] 0 (Some (ErrWrap ErrNextCursorMismatch "")) c
           (mkMetrics (rcacheHitsCounter m) (S (rcacheMissCounter m)))
           [(after, lag)])).
Proof.
  intros Hmiss Hld Hne.
  pose proof (maybeHitUnsafe_miss c (now e) after lag Hmiss) as Hm.
  assert (Hlen : (Z.of_nat (List.length res) =? 0) = false).
  { destruct res; [congruence | reflexivity]. }
  split.
  - intros Hnc. apply hasNonConsec_true in Hnc.
    unfold Load. rewrite Hm. simpl. unfold readThrough. rewrite Hm. simpl.
    rewrite Hld, Hlen, Hnc. reflexivity.
  - intros Hc Hnext. apply hasNonConsec_false in Hc.
    unfold Load. rewrite Hm. simpl. unfold readThrough. rewrite Hm. simpl.
    rewrite Hld, Hlen, Hc.
    destruct (Z.eqb_spec next (getLastID res)); [contradiction|]. reflexivity.
Qed.

Lemma readThrough_rejects_invalid_batch_witness :
  Load (mkEnv 100 (constLoader ([ev 1 10; ev 3 10], 3, None))) newRCache m0 0 0 =
    Ok (mkLoadRet [] 0 (Some ErrConsecEvent) newRCache (mkMetrics 0 1) [(0, 0)]) /\
  Load (mkEnv 100 (constLoader ([ev 1 10; ev 2 10], 7, None))) newRCache m0 0 0 =
    Ok (mkLoadRet [] 0 (Some (ErrWrap ErrNextCursorMismatch "")) newRCache
          (mkMetrics 0 1) [(0, 0)]).
Proof.
  split.
  - refine (proj1 (readThrough_rejects_invalid_batch
                     (mkEnv 100 (constLoader ([ev 1 10; ev 3 10], 3, None)))
                     newRCache m0 0 0 [ev 1 10; ev 3 10] 3 _ _ _) _).
    + right. vm_compute. reflexivity.
    + reflexivity.
    + discriminate.
    + simpl. intros [H _]. vm_compute in H. discriminate.
  - refine (proj2 (readThrough_rejects_invalid_batch
                     (mkEnv 100 (constLoader ([ev 1 10; ev 2 10], 7, None)))
                     newRCache m0 0 0 [ev 1 10; ev 2 10] 7 _ _ _) _ _).
    + right. vm_compute. reflexivity.
    + reflexivity.
    + discriminate.
    + simpl. split; [vm_compute; reflexivity | exact I].
    + vm_compute. discriminate.
Defined.

End ReadThroughValidation.

Section CacheHit.

Import Examples.

Lemma consecutive_last_id (l : list Event) (a : Event) :
  consecutive (a :: l) ->
  exists k, IDInt (last (a :: l) zeroEvent)
            = IDInt a + Z.of_nat (List.length l) + k * 2 ^ 64.
Proof.
  revert a. induction l as [|b t IH]; intros a H.
  - exists 0. simpl. lia.
  - destruct H as [Hab H]. destruct (IH b H) as [k2 Hk2].
    destruct (wrap64_cases (IDInt a + 1)) as [k1 [Hk1 _]].
    exists (k1 + k2).
    change (last (a :: b :: t) zeroEvent) with (last (b :: t) zeroEvent).
    rewrite Hk2, Hab. unfold add64. rewrite Hk1.
    change (List.length (b :: t)) with (S (List.length t)). lia.
Qed.

Lemma collectUntil_maximalPrefix (cutOff : Z) (l : list Event) :
  maximalPrefix (fun x => Timestamp x <= cutOff) (collectUntil cutOff l) l.
Proof.
  induction l as [|a t IH]; simpl.
  - exists []. repeat split; constructor.
  - destruct (Z.gtb_spec (Timestamp a) cutOff) as [Hgt|Hle].
    + exists (a :: t). repeat split; [constructor | lia].
    + destruct IH as [rest [Heq [Hall Hrest]]].
      exists rest. repeat split.
      * simpl. f_equal. exact Heq.
      * constructor; assumption.
      * exact Hrest.
Qed.

(** In a well-formed cache a request inside the cached range has its
    offset inside the slice. *)
Lemma hit_offset_in_range (c : rcache) (from : Z) :
  consecutive (cache c) -> idsInt64 (cache c) -> lenUnsafe c <= max_int64 ->
  cache c <> [] ->
  headUnsafe c <= from <= tailUnsafe c ->
  sub64 from (headUnsafe c) = from - headUnsafe c /\
  0 <= from - headUnsafe c < lenUnsafe c.
Proof.
  intros Hcons Hids Hlen Hne Hrange.
  unfold headUnsafe, tailUnsafe, emptyUnsafe, lenUnsafe in *.
  destruct (cache c) as [|a l] eqn:Hc; [congruence|].
  change (Z.of_nat (List.length (a :: l)) =? 0) with false in *.
  cbv iota in *.
  destruct (consecutive_last_id l a Hcons) as [k Hk].
  assert (Ha : in_int64 (IDInt a)) by (inversion Hids; assumption).
  assert (Hl : in_int64 (IDInt (last (a :: l) zeroEvent))).
  { pose proof (proj1 (Forall_forall _ _) Hids (last (a :: l) zeroEvent)) as HF.
    apply HF. destruct (exists_last (l := a :: l)) as [l' [x Hx]]; [discriminate|].
    rewrite Hx. rewrite last_last. apply in_or_app. right. left. reflexivity. }
  change (List.length (a :: l)) with (S (List.length l)) in *.
  unfold in_int64, min_int64, max_int64 in *.
  change (2 ^ 63) with 9223372036854775808 in *.
  change (2 ^ 64) with 18446744073709551616 in *.
  assert (k = 0) by lia. subst k.
  split.
  - unfold sub64. apply wrap64_id. unfold in_int64, min_int64, max_int64.
    change (2 ^ 63) with 9223372036854775808. lia.
  - lia.
Qed.

(** C5 as stated fails at the boundary: an event committed exactly
    [now - lag] ago is served, though its timestamp is not strictly older
    than [now - lag]. *)
Lemma cache_hit_serves_event_at_cutoff :
  let c := mkRCache [ev 1 90] defaultRCacheLimit in
  reachable c /\
  headUnsafe c <= add64 0 1 <= tailUnsafe c /\
  Load (mkEnv 100 (constLoader ([], 0, None))) c m0 0 10 =
    Ok (mkLoadRet [ev 1 90] 1 None c (mkMetrics 1 0) []) /\
  ~ Timestamp (ev 1 90) < 100 - 10.
Proof.
  simpl. repeat split.
  - change (mkRCache [ev 1 90] defaultRCacheLimit) with
      (rc (mkLoadRet [ev 1 90] 1 None (mkRCache [ev 1 90] defaultRCacheLimit)
             (mkMetrics 0 1) [(0, 0)])).
    apply (reach_load (envAt 100 [ev 1 90]) newRCache m0 0 0).
    + apply reach_new.
    + vm_compute. reflexivity.
  - vm_compute. discriminate.
  - vm_compute. discriminate.
  - simpl. lia.
Qed.

(** C5, amended.  When [from = after + 1] lies within the id range of a
    non-empty cache (consecutive, as every reachable cache is, with
    [int64] ids and an [int] length), [Load] answers from memory without
    calling the wrapped loader: with [lag = 0] it returns the whole cached
    suffix from offset [from - head]; with [lag > 0] it returns the
    longest prefix of that suffix whose events have a timestamp not after
    [now - lag], stopping at the first event that is newer. *)
Theorem cache_hit_serves_from_memory (e : env) (c : rcache) (m : metrics)
  (after lag : Z) :
  consecutive (cache c) -> idsInt64 (cache c) -> lenUnsafe c <= max_int64 ->
  cache c <> [] ->
  headUnsafe c <= add64 after 1 <= tailUnsafe c ->
  exists r,
    Load e c m after lag = Ok r /\
    loaderCalls r = [] /\ err r = None /\ rc r = c /\
    nextCursor r = getLastID (events r) /\
    (lag = 0 ->
     events r = skipn (Z.to_nat (add64 after 1 - headUnsafe c)) (cache c)) /\
    (0 < lag <= max_int64 ->
     maximalPrefix (fun x => Timestamp x <= now e - lag) (events r)
       (skipn (Z.to_nat (add64 after 1 - headUnsafe c)) (cache c))).
Proof.
  intros Hcons Hids Hlen Hne Hrange.
  destruct (hit_offset_in_range c (add64 after 1) Hcons Hids Hlen Hne Hrange)
    as [Hoff Hin].
  unfold Load, maybeHitUnsafe.
  destruct (Z.ltb_spec (add64 after 1) (headUnsafe c)); [lia|].
  destruct (Z.gtb_spec (add64 after 1) (tailUnsafe c)); [lia|].
  simpl. rewrite Hoff.
  destruct (Z.eqb_spec lag 0) as [Hlag|Hlag].
  - destruct (Z.leb_spec 0 (add64 after 1 - headUnsafe c)); [|lia].
    destruct (Z.leb_spec (add64 after 1 - headUnsafe c) (lenUnsafe c)); [|lia].
    simpl. eexists. split; [reflexivity|]. simpl.
    repeat split; try reflexivity. lia.
  - destruct (Z.ltb_spec (add64 after 1 - headUnsafe c) (lenUnsafe c)); [|lia].
    destruct (Z.ltb_spec (add64 after 1 - headUnsafe c) 0); [lia|].
    simpl. eexists. split; [reflexivity|]. simpl.
    repeat split; try reflexivity; [lia|].
    intros Hpos.
    assert (Hneg : neg64 lag = - lag).
    { unfold neg64. apply wrap64_id. unfold in_int64, min_int64, max_int64 in *.
      change (2 ^ 63) with 9223372036854775808 in *. lia. }
    rewrite Hneg. replace (now e + - lag) with (now e - lag) by lia.
    apply collectUntil_maximalPrefix.
Qed.

Lemma cache_hit_serves_from_memory_witness :
  exists r,
    Load (envAt 100 rows12) cache12 m0 0 10 = Ok r /\
    loaderCalls r = [] /\ err r = None /\ rc r = cache12 /\
    nextCursor r = getLastID (events r) /\
    (10 = 0 ->
     events r = skipn (Z.to_nat (add64 0 1 - headUnsafe cache12)) (cache cache12)) /\
    (0 < 10 <= max_int64 ->
     maximalPrefix (fun x => Timestamp x <= now (envAt 100 rows12) - 10) (events r)
       (skipn (Z.to_nat (add64 0 1 - headUnsafe cache12)) (cache cache12))).
Proof.
  apply (cache_hit_serves_from_memory (envAt 100 rows12) cache12 m0 0 10).
  - simpl. split; [vm_compute; reflexivity | exact I].
  - repeat constructor; vm_compute; discriminate.
  - vm_compute. discriminate.
  - discriminate.
  - vm_compute. split; discriminate.
Defined.

End CacheHit.

(** ** Decimal printing and parsing *)

Section Decimal.

Import Strconv.
Local Open Scope string_scope.
Local Open Scope Z_scope.

Lemma append_assoc (a b c : string) : (a ++ b) ++ c = a ++ (b ++ c).
Proof. induction a as [|x a IH]; simpl; [reflexivity | rewrite IH; reflexivity]. Qed.

Lemma append_nil_r (a : string) : a ++ "" = a.
Proof. induction a as [|x a IH]; simpl; [reflexivity | rewrite IH; reflexivity]. Qed.

Lemma isDigit_not_sign (c : ascii) :
  isDigit c = true ->
  Ascii.eqb c "+" = false /\ Ascii.eqb c "-" = false /\ Ascii.eqb c "|" = false.
Proof.
  destruct c as [[] [] [] [] [] [] [] []]; vm_compute; intros H;
    try discriminate H; repeat split.
Qed.

Lemma digitVal_range (c : ascii) : isDigit c = true -> 0 <= digitVal c <= 9.
Proof.
  unfold isDigit, digitVal. intros H. apply andb_prop in H as [H1 H2].
  apply Z.leb_le in H1, H2. lia.
Qed.

Lemma digitChar_digit (u : Z) :
  0 <= u < 10 -> isDigit (digitChar u) = true /\ digitVal (digitChar u) = u.
Proof.
  intros H.
  assert (Hc : u = 0 \/ u = 1 \/ u = 2 \/ u = 3 \/ u = 4 \/ u = 5 \/ u = 6 \/
               u = 7 \/ u = 8 \/ u = 9) by lia.
  repeat (destruct Hc as [-> | Hc]; [split; reflexivity|]).
  subst u. split; reflexivity.
Qed.

Lemma allDigits_app (a b : string) :
  allDigits (a ++ b) = allDigits a && allDigits b.
Proof.
  induction a as [|x a IH]; simpl; [reflexivity|].
  rewrite IH. apply andb_assoc.
Qed.

Lemma digitsValue_app (n : Z) (a b : string) :
  digitsValue n (a ++ b) = digitsValue (digitsValue n a) b.
Proof. revert n. induction a as [|x a IH]; intros n; simpl; [reflexivity | apply IH]. Qed.

Lemma digitsValue_ge (s : string) (n : Z) :
  allDigits s = true -> 0 <= n -> n <= digitsValue n s.
Proof.
  revert n. induction s as [|c t IH]; intros n Hd Hn; simpl; [lia|].
  simpl in Hd. apply andb_prop in Hd as [Hc Ht].
  pose proof (digitVal_range c Hc).
  specialize (IH (n * 10 + digitVal c) Ht). lia.
Qed.

(** On digits whose value fits a [uint64] the loop of [ParseUint] reads
    exactly that value. *)
Lemma parseUintLoop_value (s : string) (n : Z) :
  allDigits s = true -> 0 <= n -> digitsValue n s <= max_uint64 ->
  parseUintLoop s n = (digitsValue n s, None).
Proof.
  revert n. induction s as [|c t IH]; intros n Hd Hn Hmax; simpl; [reflexivity|].
  simpl in Hd, Hmax. apply andb_prop in Hd as [Hc Ht]. rewrite Hc.
  pose proof (digitVal_range c Hc) as Hr.
  pose proof (digitsValue_ge t (n * 10 + digitVal c) Ht) as Hge.
  unfold cutoff10, max_uint64 in *.
  change (2 ^ 64) with 18446744073709551616 in *.
  change ((18446744073709551616 - 1) / 10 + 1) with 1844674407370955162.
  destruct (Z.geb_spec n 1844674407370955162) as [Hbig|Hsmall]; [lia|].
  rewrite (Z.mod_small (n * 10)) by lia.
  rewrite (Z.mod_small (n * 10 + digitVal c)) by lia.
  destruct (Z.ltb_spec (n * 10 + digitVal c) (n * 10)); [lia|].
  destruct (Z.gtb_spec (n * 10 + digitVal c) (18446744073709551616 - 1)); [lia|].
  simpl. apply IH; [exact Ht | lia | exact Hmax].
Qed.

(** What [fmtDigits] prints in front of [acc]: a non-empty string of
    digits that denotes [u]. *)
Lemma fmtDigits_spec (fuel : nat) (u : Z) (acc : string) :
  0 <= u < 10 ^ Z.of_nat (S fuel) ->
  exists ds p,
    fmtDigits (S fuel) u acc = ds ++ acc /\ ds <> "" /\ allDigits ds = true /\
    forall n, digitsValue n ds = n * p + u.
Proof.
  revert u acc. induction fuel as [|f IH]; intros u acc Hu.
  - change (10 ^ Z.of_nat 1) with 10 in Hu.
    destruct (digitChar_digit u Hu) as [Hd Hv].
    exists (String (digitChar u) ""), 10. simpl.
    destruct (Z.ltb_spec u 10); [|lia].
    repeat split; [discriminate | rewrite Hd; reflexivity |].
    intros n. rewrite Hv. reflexivity.
  - change (fmtDigits (S (S f)) u acc) with
      (if u <? 10 then String (digitChar u) acc
       else fmtDigits (S f) (u / 10) (String (digitChar (u mod 10)) acc)).
    destruct (Z.ltb_spec u 10) as [Hlt|Hge].
    + destruct (digitChar_digit u (conj (proj1 Hu) Hlt)) as [Hd Hv].
      exists (String (digitChar u) ""), 10. simpl.
      repeat split; [discriminate | rewrite Hd; reflexivity |].
      intros n. rewrite Hv. reflexivity.
    + assert (Hq : 0 <= u / 10 < 10 ^ Z.of_nat (S f)).
      { rewrite (Nat2Z.inj_succ (S f)), Z.pow_succ_r in Hu by lia.
        split; [apply Z.div_pos; lia | apply Z.div_lt_upper_bound; lia]. }
      destruct (IH (u / 10) (String (digitChar (u mod 10)) acc) Hq)
        as [ds [p [Heq [Hne [Hall Hval]]]]].
      pose proof (Z.mod_pos_bound u 10 ltac:(lia)) as Hm.
      destruct (digitChar_digit (u mod 10) Hm) as [Hd Hv].
      exists (ds ++ String (digitChar (u mod 10)) ""), (p * 10).
      repeat split.
      * rewrite Heq, append_assoc. reflexivity.
      * destruct ds; [congruence | discriminate].
      * rewrite allDigits_app, Hall. simpl. rewrite Hd. reflexivity.
      * intros n. rewrite digitsValue_app, Hval. simpl. rewrite Hv.
        pose proof (Z.div_mod u 10 ltac:(lia)). lia.
Qed.

Lemma ParseUint_fmtDigits (u : Z) :
  0 <= u <= max_uint64 ->
  exists ds,
    fmtDigits 20 u "" = ds /\ ds <> "" /\ allDigits ds = true /\
    ParseUint ds = (u, None).
Proof.
  intros Hu.
  assert (Hp : 0 <= u < 10 ^ Z.of_nat 20).
  { unfold max_uint64 in Hu. change (2 ^ 64) with 18446744073709551616 in Hu.
    change (10 ^ Z.of_nat 20) with 100000000000000000000. lia. }
  destruct (fmtDigits_spec 19 u "" Hp) as [ds [p [Heq [Hne [Hall Hval]]]]].
  rewrite append_nil_r in Heq.
  exists ds. repeat split; try assumption.
  unfold ParseUint. destruct ds as [|c t]; [congruence|].
  rewrite parseUintLoop_value; [| exact Hall | lia | rewrite Hval; lia].
  rewrite Hval. reflexivity.
Qed.

(** Parsing what [%d] printed gives the number back, for every
    [int64]. *)
Lemma ParseInt_FormatInt (z : Z) :
  in_int64 z -> ParseInt (FormatInt z) = (z, None).
Proof.
  unfold in_int64, min_int64, max_int64. intros Hz.
  change (2 ^ 63) with 9223372036854775808 in Hz.
  unfold FormatInt. destruct (Z.ltb_spec z 0) as [Hneg|Hpos].
  - assert (Hm : (- z) mod 2 ^ 64 = - z).
    { apply Z.mod_small. change (2 ^ 64) with 18446744073709551616. lia. }
    rewrite Hm.
    destruct (ParseUint_fmtDigits (- z)) as [ds [Heq [Hne [Hall HP]]]].
    { unfold max_uint64. change (2 ^ 64) with 18446744073709551616. lia. }
    rewrite Heq. unfold ParseInt.
    change (Ascii.eqb "-" "-") with true. change (Ascii.eqb "-" "+") with false.
    cbv iota. rewrite HP.
    change (2 ^ 63) with 9223372036854775808.
    simpl negb. simpl andb.
    destruct (Z.gtb_spec (- z) 9223372036854775808); [lia|].
    f_equal. unfold neg64.
    destruct (Z.eq_dec z (- 9223372036854775808)) as [->|Hne'].
    + vm_compute. reflexivity.
    + rewrite (wrap64_id (- z)).
      * rewrite Z.opp_involutive. apply wrap64_id.
        unfold in_int64, min_int64, max_int64.
        change (2 ^ 63) with 9223372036854775808. lia.
      * unfold in_int64, min_int64, max_int64.
        change (2 ^ 63) with 9223372036854775808. lia.
  - destruct (ParseUint_fmtDigits z) as [ds [Heq [Hne [Hall HP]]]].
    { unfold max_uint64. change (2 ^ 64) with 18446744073709551616. lia. }
    rewrite Heq. destruct ds as [|c t]; [congruence|].
    simpl in Hall. apply andb_prop in Hall as [Hc Ht].
    destruct (isDigit_not_sign c Hc) as [Hplus [Hminus _]].
    unfold ParseInt. rewrite Hplus, Hminus. rewrite HP.
    change (2 ^ 63) with 9223372036854775808.
    simpl negb. simpl andb.
    destruct (Z.geb_spec z 9223372036854775808); [lia|].
    f_equal. apply wrap64_id.
    unfold in_int64, min_int64, max_int64.
    change (2 ^ 63) with 9223372036854775808. lia.
Qed.

End Decimal.

(** ** The blob cursor *)

Section BlobCursor.

Import Strconv Strings Rblob.
Local Open Scope string_scope.
Local Open Scope Z_scope.

Lemma allDigits_noPipe (s : string) : allDigits s = true -> hasPipe s = false.
Proof.
  induction s as [|c t IH]; simpl; [reflexivity|].
  intros H. apply andb_prop in H as [Hc Ht].
  destruct (isDigit_not_sign c Hc) as [_ [_ Hp]]. rewrite Hp. simpl. auto.
Qed.

Lemma FormatInt_noPipe (z : Z) : in_int64 z -> hasPipe (FormatInt z) = false.
Proof.
  unfold in_int64, min_int64, max_int64. intros Hz.
  change (2 ^ 63) with 9223372036854775808 in Hz.
  unfold FormatInt. destruct (Z.ltb_spec z 0).
  - assert (Hm : (- z) mod 2 ^ 64 = - z).
    { apply Z.mod_small. change (2 ^ 64) with 18446744073709551616. lia. }
    rewrite Hm.
    destruct (ParseUint_fmtDigits (- z)) as [ds [Heq [_ [Hall _]]]].
    { unfold max_uint64. change (2 ^ 64) with 18446744073709551616. lia. }
    rewrite Heq. simpl. apply allDigits_noPipe. exact Hall.
  - destruct (ParseUint_fmtDigits z) as [ds [Heq [_ [Hall _]]]].
    { unfold max_uint64. change (2 ^ 64) with 18446744073709551616. lia. }
    rewrite Heq. apply allDigits_noPipe. exact Hall.
Qed.

Lemma Split_noPipe (s : string) : hasPipe s = false -> Split s = [s].
Proof.
  induction s as [|c t IH]; simpl; [reflexivity|].
  intros H. apply orb_false_elim in H as [Hc Ht].
  rewrite Hc, (IH Ht). reflexivity.
Qed.

Lemma Split_app_pipe (k t : string) :
  hasPipe k = false -> Split (k ++ String "|" t) = k :: Split t.
Proof.
  induction k as [|c k IH]; simpl; [reflexivity|].
  intros H. apply orb_false_elim in H as [Hc Hk].
  rewrite Hc, (IH Hk). reflexivity.
Qed.

Lemma append_pipe_not_empty (k t : string) :
  String.eqb (k ++ String "|" t) "" = false.
Proof. destruct k; reflexivity. Qed.

(** C10.  For every cursor whose key holds no ['|'] (and whose offset is
    an [int64], as its type says), parsing its printed form gives the
    same key, offset and last flag back, with a nil error. *)
Theorem parseCursor_String_roundtrip (c : cursor) :
  hasPipe (Key c) = false ->
  in_int64 (Offset c) ->
  parseCursor (String_ c) = (c, None).
Proof.
  destruct c as [k off lst]. simpl. intros Hk Hoff.
  pose proof (FormatInt_noPipe off Hoff) as Hf.
  pose proof (ParseInt_FormatInt off Hoff) as Hp.
  unfold parseCursor, String_. simpl Key. simpl Offset. simpl Last.
  change ("|" ++ FormatInt off) with (String "|" (FormatInt off)).
  destruct lst.
  - rewrite append_assoc.
    change (String "|" (FormatInt off) ++ "|last")
      with (String "|" (FormatInt off ++ String "|" "last")).
    rewrite append_pipe_not_empty.
    rewrite (Split_app_pipe k _ Hk), (Split_app_pipe (FormatInt off) _ Hf).
    rewrite (Split_noPipe "last" eq_refl).
    simpl. rewrite Hp. reflexivity.
  - rewrite append_pipe_not_empty.
    rewrite (Split_app_pipe k _ Hk), (Split_noPipe _ Hf).
    simpl. rewrite Hp. reflexivity.
Qed.

Lemma parseCursor_String_roundtrip_witness :
  parseCursor (String_ (mkCursor "2024/a.json" (-1) true))
    = (mkCursor "2024/a.json" (-1) true, None).
Proof.
  apply (parseCursor_String_roundtrip (mkCursor "2024/a.json" (-1) true)).
  - reflexivity.
  - unfold in_int64, min_int64, max_int64. simpl. lia.
Defined.

End BlobCursor.

(** ** The insert path and the in-memory notifier *)

Section InsertAndNotify.

Import Rsql Examples.

(** C6 (the code departs from the claim).  With the sentinel inputs
    [InsertWithMetadata] returns an error without issuing the insert, but
    the function it returns with that error is nil, and calling a nil
    function panics. *)
Theorem insert_noop_returns_nil_func
  (insertEvent : string -> Z -> list Z -> option error) (metadata : list Z)
  (n : inmemNotifier) :
  InsertWithMetadata insertEvent "0" 0 metadata =
    (nilFunc, Some (ErrNew "inserting invalid noop event"), []) /\
  callNotify nilFunc n = Panic.
Proof. split; reflexivity. Qed.

(** When the SQL insert fails, the returned function is [noopFunc], which
    can be called and does nothing. *)
Lemma insert_failure_returns_noopFunc
  (insertEvent : string -> Z -> list Z -> option error)
  (foreignID : string) (typ : Z) (metadata : list Z) (x : error)
  (n : inmemNotifier) :
  isNoop foreignID typ = false ->
  insertEvent foreignID typ metadata = Some x ->
  InsertWithMetadata insertEvent foreignID typ metadata =
    (noopFunc, Some x, [(foreignID, typ)]) /\
  callNotify noopFunc n = Ok (Done n).
Proof.
  intros Hn Hi. unfold InsertWithMetadata. rewrite Hn, Hi. split; reflexivity.
Qed.

Lemma setNth_length (i : nat) (c : chan) (h : chanHeap) :
  List.length (setNth i c h) = List.length h.
Proof.
  revert i. induction h as [|x t IH]; intros i; [destruct i; reflexivity|].
  destruct i; simpl; [reflexivity | rewrite IH; reflexivity].
Qed.

Lemma selectSendDefault_length (h : chanHeap) (l : nat) :
  List.length (selectSendDefault h l) = List.length h.
Proof.
  unfold selectSendDefault, chanSend.
  destruct (nth_error h l) as [c|]; [|reflexivity].
  destruct (Nat.ltb (queued c) (capacity c)); [apply setNth_length | reflexivity].
Qed.

(** C7.  [Notify] on the in-memory notifier completes whatever listeners
    are registered and however full their buffers are, every send being a
    [select] with a [default] branch, and leaves the listener list
    empty; [C] allocates a channel that did not exist before, of capacity
    1 and empty, and appends it to the listeners. *)
Theorem inmem_notify_never_blocks (n : inmemNotifier) :
  (exists h', Notify n = Done (mkInmem [] h') /\
              List.length h' = List.length (heap n)) /\
  (forall h l, exists h', notifyLoop [l] h = Done h' /\
                          (chanSend h l = None -> h' = h)) /\
  nth_error (heap n) (fst (C n)) = None /\
  nth_error (heap (snd (C n))) (fst (C n)) = Some (mkChan 1 0) /\
  listeners (snd (C n)) = listeners n ++ [fst (C n)].
Proof.
  repeat split.
  - unfold Notify.
    assert (H : forall ls h, exists h', notifyLoop ls h = Done h' /\
                                        List.length h' = List.length h).
    { induction ls as [|l rest IH]; intros h; simpl.
      - exists h. split; reflexivity.
      - destruct (IH (selectSendDefault h l)) as [h' [H1 H2]].
        exists h'. split; [exact H1|].
        rewrite H2. apply selectSendDefault_length. }
    destruct (H (listeners n) (heap n)) as [h' [H1 H2]].
    exists h'. rewrite H1. split; [reflexivity | exact H2].
  - intros h l. simpl. eexists. split; [reflexivity|].
    unfold selectSendDefault. intros ->. reflexivity.
  - simpl. apply nth_error_None. lia.
  - simpl. rewrite nth_error_app2 by lia. rewrite Nat.sub_diag. reflexivity.
Qed.

(** With a full buffer among the listeners a loop of plain sends would
    block where [Notify] completes. *)
Lemma notify_completes_where_plain_sends_block :
  blockingLoop (listeners busyNotifier) (heap busyNotifier) = Blocked /\
  Notify busyNotifier = Done (mkInmem [] [mkChan 1 1; mkChan 1 1]).
Proof. split; reflexivity. Qed.

End InsertAndNotify.

(** ** The stream client *)

Section StreamClient.

Import Rsql Examples.

Variable LS : Type.
Variable sloader : env -> LS -> Z -> Z -> outcome (LoadResult * LS).

Lemma popBuf_cursor (s s' : streamclient) (ls ls' : LS) (e : Event) :
  popBuf LS s ls = (Returned e, s', ls') -> prev s' = IDInt e.
Proof.
  unfold popBuf. destruct (buf s) as [|x rest]; [discriminate|].
  intros H. injection H as <- <- _. reflexivity.
Qed.

Lemma recvLoop_cursor (ps : list poll) (s s' : streamclient) (ls ls' : LS)
  (e : Event) :
  recvLoop LS sloader ps s ls = (Returned e, s', ls') -> prev s' = IDInt e.
Proof.
  revert s ls. induction ps as [|p ps IH]; intros s ls; simpl.
  - destruct (negb (Z.of_nat (List.length (buf s)) =? 0));
      [apply popBuf_cursor | discriminate].
  - destruct (negb (Z.of_nat (List.length (buf s)) =? 0));
      [apply popBuf_cursor|].
    destruct (sloader (pollEnv p) ls (prev s) (Lag s)) as [[[[el next] er] ls1]|];
      [|discriminate].
    destruct er; [discriminate|].
    destruct (Z.of_nat (List.length el) >? 0); [apply popBuf_cursor|].
    destruct (wait (backoff _) p); [discriminate|]. apply IH.
Qed.

(** Whatever the loader, a successful [Recv] leaves the cursor at the id
    of the event it returns. *)
Lemma Recv_cursor (w : recvEnv) (s s' : streamclient) (ls ls' : LS) (e : Event) :
  Recv LS sloader w s ls = (Returned e, s', ls') -> prev s' = IDInt e.
Proof.
  unfold Recv. destruct (ctxErr w); [discriminate|].
  destruct (StreamFromHead s).
  - destruct (latestID w) as [id [x|]]; [discriminate | apply recvLoop_cursor].
  - destruct (negb (String.eqb (after s) "")); [|apply recvLoop_cursor].
    destruct (Strconv.ParseInt (after s)) as [id [x|]];
      [discriminate | apply recvLoop_cursor].
Qed.


(** *** Delivery order over a loader that keeps its contract *)

Hypothesis contract : loaderContract sloader.

Lemma popBuf_ready (s s' : streamclient) (ls ls' : LS) (r : recvResult) :
  clientReady s -> popBuf LS s ls = (r, s', ls') ->
  clientReady s' /\ prev s <= prev s' /\
  (forall e, r = Returned e -> prev s < IDInt e).
Proof.
  intros [Hh [Ha Hb]]. unfold popBuf.
  destruct (buf s) as [|x rest] eqn:Hbuf.
  - intros H. injection H as <- <- _.
    repeat split; try assumption; [rewrite Hbuf; exact I | lia | discriminate].
  - destruct Hb as [Hx Hrest]. intros H. injection H as <- <- _.
    repeat split; simpl; try assumption; [lia|].
    intros e He. injection He as <-. exact Hx.
Qed.

Lemma recvLoop_ready (ps : list poll) (s s' : streamclient) (ls ls' : LS)
  (r : recvResult) :
  clientReady s -> recvLoop LS sloader ps s ls = (r, s', ls') ->
  clientReady s' /\ prev s <= prev s' /\
  (forall e, r = Returned e -> prev s < IDInt e).
Proof.
  revert s ls. induction ps as [|p ps IH]; intros s ls Hs; simpl.
  - destruct (negb (Z.of_nat (List.length (buf s)) =? 0));
      [apply popBuf_ready; exact Hs|].
    intros H. injection H as <- <- _.
    repeat split; try apply Hs; [lia | discriminate].
  - destruct (negb (Z.of_nat (List.length (buf s)) =? 0));
      [apply popBuf_ready; exact Hs|].
    destruct (sloader (pollEnv p) ls (prev s) (Lag s))
      as [[[[el next] er] ls1]|] eqn:Hld.
    2:{ intros H. injection H as <- <- _.
        repeat split; try apply Hs; [lia | discriminate]. }
    destruct er as [x|].
    { intros H. injection H as <- <- _.
      repeat split; try apply Hs; [lia | discriminate]. }
    destruct (contract _ _ _ _ _ _ _ Hld) as [Hasc Hempty].
    destruct Hs as [Hh [Ha Hb]].
    destruct el as [|e0 rest].
    + simpl. specialize (Hempty eq_refl).
      destruct (wait (backoff s) p) as [x|].
      * intros H. injection H as <- <- _.
        repeat split; simpl; try assumption; discriminate.
      * intros H. apply IH in H.
        -- simpl in H. destruct H as [H1 [H2 H3]].
           repeat split; [apply H1 | apply H1 | apply H1 | lia |].
           intros e He. specialize (H3 e He). lia.
        -- repeat split; simpl; assumption.
    + destruct Hasc as [H0 Hrest].
      change (Z.of_nat (List.length (e0 :: rest)) >? 0) with true. cbv iota.
      unfold popBuf. simpl.
      intros H. injection H as <- <- _.
      repeat split; simpl; try assumption; [lia|].
      intros e He. injection He as <-. exact H0.
Qed.

(** A [Recv] on a ready client leaves it ready, never moves the cursor
    backwards, and returns only an event above the cursor. *)
Lemma Recv_ready (w : recvEnv) (s s' : streamclient) (ls ls' : LS)
  (r : recvResult) :
  clientReady s -> Recv LS sloader w s ls = (r, s', ls') ->
  clientReady s' /\ prev s <= prev s' /\
  (forall e, r = Returned e -> prev s < IDInt e).
Proof.
  intros Hs. unfold Recv. destruct (ctxErr w).
  - intros H. injection H as <- <- _.
    repeat split; try apply Hs; [lia | discriminate].
  - destruct Hs as [Hh [Ha Hb]]. rewrite Hh, Ha. simpl.
    apply recvLoop_ready. repeat split; assumption.
Qed.

(** The first successful [Recv] of a client made with the from-head
    option or with a cursor string, not both, leaves it ready. *)
Lemma Recv_first_ready (w : recvEnv) (afterRaw : string) (fromHead : bool)
  (lag bo : Z) (s' : streamclient) (ls ls' : LS) (e : Event) :
  fromHead = false \/ afterRaw = EmptyString ->
  Recv LS sloader w (Stream afterRaw fromHead lag bo) ls = (Returned e, s', ls') ->
  clientReady s'.
Proof.
  intros Hopt. unfold Recv, Stream. destruct (ctxErr w); [discriminate|]. simpl.
  destruct fromHead.
  - destruct Hopt as [Hf | ->]; [discriminate|].
    destruct (latestID w) as [id [x|]]; [discriminate|]. simpl.
    intros H. apply recvLoop_ready in H; [apply H|].
    repeat split; reflexivity.
  - destruct (String.eqb_spec afterRaw "") as [->|Hne]; simpl.
    + intros H. apply recvLoop_ready in H; [apply H|].
      repeat split; reflexivity.
    + destruct (Strconv.ParseInt afterRaw) as [id [x|]]; [discriminate|]. simpl.
      intros H. apply recvLoop_ready in H; [apply H|].
      repeat split; reflexivity.
Qed.

(** Over a loader that keeps its contract, two successive successful
    [Recv] calls of such a client return increasing ids. *)
Lemma successive_Recv_increasing (w1 w2 : recvEnv) (afterRaw : string)
  (fromHead : bool) (lag bo : Z) (s1 s2 : streamclient) (ls0 ls1 ls2 : LS)
  (e1 e2 : Event) :
  fromHead = false \/ afterRaw = EmptyString ->
  Recv LS sloader w1 (Stream afterRaw fromHead lag bo) ls0 = (Returned e1, s1, ls1) ->
  Recv LS sloader w2 s1 ls1 = (Returned e2, s2, ls2) ->
  IDInt e1 < IDInt e2.
Proof.
  intros Hopt H1 H2.
  pose proof (Recv_first_ready _ _ _ _ _ _ _ _ _ Hopt H1) as Hready.
  pose proof (Recv_cursor _ _ _ _ _ _ H1) as Hcur.
  destruct (Recv_ready _ _ _ _ _ _ Hready H2) as [_ [_ H3]].
  rewrite <- Hcur. apply H3. reflexivity.
Qed.

End StreamClient.

Section StreamOverCache.

Import Rsql Examples.


(** C2 (the code departs from the claim).  The table holds ids 1 and 2
    and the cache holds both.  A client with a lag of 10 receives id 1;
    its next poll is a cache hit without events, which hands back cursor
    0 in place of 1; after the wait it polls from 0 and receives id 1
    again.  Each time the cursor equals the returned id, but the second
    id is not greater than the first. *)
Theorem lagging_client_receives_id_twice :
  Recv loaderState (buildLoader true) firstRecv laggingClient (cache12, m0)
    = (Returned (ev 1 10), mkStream false 10 5 "" 1 [],
       (cache12, mkMetrics 1 0)) /\
  Recv loaderState (buildLoader true)
       (mkRecvEnv None (0, None) [mkPoll (envAt 101 rows12) None])
       (mkStream false 10 5 "" 1 []) (cache12, mkMetrics 1 0)
    = (StillWaiting, mkStream false 10 5 "" 0 [], (cache12, mkMetrics 2 0)) /\
  Recv loaderState (buildLoader true) secondRecv
       (mkStream false 10 5 "" 1 []) (cache12, mkMetrics 1 0)
    = (Returned (ev 1 10), mkStream false 10 5 "" 1 [],
       (cache12, mkMetrics 3 0)) /\
  ~ IDInt (ev 1 10) > IDInt (ev 1 10).
Proof.
  repeat split; try (vm_compute; reflexivity).
  simpl. lia.
Qed.

(** The loader of a table without cache over the two rows keeps the
    contract, at every instant, cursor and lag. *)
Lemma uncached_table_keeps_contract :
  loaderContract
    (fun (e : env) (ls : loaderState) after lag =>
       buildLoader false (envAt (now e) rows12) ls after lag).
Proof.
  intros e ls after lag el next ls'.
  unfold buildLoader, envAt, tableLoader, rows12, ev, loader, filter, IDInt,
    Timestamp.
  destruct (Z.gtb_spec 1 after) as [H1|H1];
    destruct (Z.gtb_spec 2 after) as [H2|H2];
    destruct ((lag =? 0) || (10 <? now e - lag));
    destruct ((lag =? 0) || (95 <? now e - lag));
    cbn; intros Heq; injection Heq as <- <- _;
    cbn; repeat split; try lia; try discriminate.
Qed.

(** A second way to the same departure, without the cache: a client
    made with the from-head option and the cursor ["1"] starts at the
    latest id and receives id 4; its next [Recv] finds the cursor string
    still set, parses it, polls from 1 and receives id 2. *)
Lemma from_head_client_rewinds_to_cursor :
  Recv loaderState (buildLoader false) headFirstRecv headClient (newRCache, m0)
    = (Returned (ev 4 40), mkStream false 0 5 "1" 4 [], (newRCache, m0)) /\
  Recv loaderState (buildLoader false) headSecondRecv
       (mkStream false 0 5 "1" 4 []) (newRCache, m0)
    = (Returned (ev 2 20), mkStream false 0 5 "" 2 [ev 3 30; ev 4 40],
       (newRCache, m0)) /\
  ~ IDInt (ev 2 20) > IDInt (ev 4 40).
Proof.
  repeat split; try (vm_compute; reflexivity).
  simpl. lia.
Qed.

End StreamOverCache.

(* ===================================================================== *)
(** * Part III: further properties of the code                            *)
(* ===================================================================== *)

(** ** The cache: bounds, hits and read-through *)

Section CacheBounds.

Import CacheProps Examples.

Lemma skipn_length_Z (k : Z) (l : list Event) :
  0 <= k <= Z.of_nat (List.length l) ->
  Z.of_nat (List.length (skipn (Z.to_nat k) l)) = Z.of_nat (List.length l) - k.
Proof. intros H. rewrite length_skipn. lia. Qed.

Lemma maybeUpdateUnsafe_len (c : rcache) (el : list Event) :
  limit (maybeUpdateUnsafe c el) = limit c /\
  lenUnsafe (maybeUpdateUnsafe c el)
    <= lenUnsafe c + Z.of_nat (List.length el).
Proof.
  unfold maybeUpdateUnsafe, lenUnsafe.
  destruct el as [|e0 el']; [simpl; lia|].
  destruct (emptyUnsafe c); [simpl; lia|].
  destruct (add64 (tailUnsafe c) 1 <? IDInt e0); [simpl; lia|].
  destruct (add64 (tailUnsafe c) 1 =? IDInt e0); simpl; [|lia].
  rewrite length_app. simpl. lia.
Qed.

(** With a limit that is not negative the trim never slices out of
    bounds and leaves at most [limit] events, the newest ones. *)
Lemma maybeTrimUnsafe_ok (c : rcache) :
  0 <= limit c -> lenUnsafe c <= max_int64 ->
  exists c',
    maybeTrimUnsafe c = Ok c' /\ limit c' = limit c /\
    lenUnsafe c' <= limit c /\
    cache c' = skipn (Z.to_nat (lenUnsafe c - limit c)) (cache c).
Proof.
  intros Hlim Hlen. unfold maybeTrimUnsafe.
  destruct (Z.gtb_spec (lenUnsafe c) (limit c)) as [Hgt|Hle].
  - assert (Hsub : sub64 (lenUnsafe c) (limit c) = lenUnsafe c - limit c).
    { unfold sub64. apply wrap64_id. unfold in_int64, min_int64, max_int64 in *.
      change (2 ^ 63) with 9223372036854775808 in *. unfold lenUnsafe in *. lia. }
    rewrite Hsub.
    destruct (Z.leb_spec 0 (lenUnsafe c - limit c)); [|lia].
    destruct (Z.leb_spec (lenUnsafe c - limit c) (lenUnsafe c)); [|lia].
    simpl. eexists. split; [reflexivity|]. simpl. repeat split.
    unfold lenUnsafe in *. simpl. rewrite skipn_length_Z; lia.
  - exists c. repeat split; try lia.
    replace (Z.to_nat (lenUnsafe c - limit c)) with 0%nat by lia. reflexivity.
Qed.

Lemma maybeHitUnsafe_completes (c : rcache) (now_ from lag : Z) :
  wellFormed c ->
  exists p, maybeHitUnsafe c now_ from lag = Ok p.
Proof.
  intros [Hcons [Hids Hlen]]. unfold maybeHitUnsafe.
  destruct (Z.ltb_spec from (headUnsafe c)); [eexists; reflexivity|].
  destruct (Z.gtb_spec from (tailUnsafe c)); [eexists; reflexivity|].
  simpl.
  destruct (cache c) as [|a l] eqn:Hc.
  - assert (Hh : headUnsafe c = 0) by (unfold headUnsafe, emptyUnsafe, lenUnsafe; rewrite Hc; reflexivity).
    assert (Ht : tailUnsafe c = 0) by (unfold tailUnsafe, emptyUnsafe, lenUnsafe; rewrite Hc; reflexivity).
    assert (Hl : lenUnsafe c = 0) by (unfold lenUnsafe; rewrite Hc; reflexivity).
    rewrite Hh, Hl in *. rewrite Ht in *.
    assert (from = 0) by lia. subst from. change (sub64 0 0) with 0.
    destruct (lag =? 0); simpl; eexists; reflexivity.
  - assert (Hne : cache c <> []) by (rewrite Hc; discriminate).
    rewrite <- Hc in Hcons, Hids.
    destruct (hit_offset_in_range c from Hcons Hids Hlen Hne (conj H H0))
      as [Hoff Hin].
    rewrite Hoff.
    destruct (lag =? 0).
    + destruct (Z.leb_spec 0 (from - headUnsafe c)); [|lia].
      destruct (Z.leb_spec (from - headUnsafe c) (lenUnsafe c)); [|lia].
      simpl. eexists; reflexivity.
    + destruct (Z.ltb_spec (from - headUnsafe c) (lenUnsafe c)); [|lia].
      destruct (Z.ltb_spec (from - headUnsafe c) 0); [lia|].
      eexists; reflexivity.
Qed.

(** On a well-formed cache whose limit is not negative [Load] completes,
    keeps the limit, and a cache within its limit stays within it. *)
Lemma Load_completes_within_limit (e : env) (c : rcache) (m : metrics)
  (after lag : Z) :
  wellFormed c -> 0 <= limit c -> lenUnsafe c <= limit c ->
  lenUnsafe c + Z.of_nat (List.length (batchOf e after lag)) <= max_int64 ->
  exists r, Load e c m after lag = Ok r /\
            limit (rc r) = limit c /\ lenUnsafe (rc r) <= limit c.
Proof.
  intros Hwf Hlim Hlen Hfit.
  destruct (maybeHitUnsafe_completes c (now e) (add64 after 1) lag Hwf)
    as [[hit ok] Hhit].
  unfold Load. rewrite Hhit. simpl. destruct ok.
  { eexists. split; [reflexivity|]. simpl. split; [reflexivity | exact Hlen]. }
  unfold readThrough. rewrite Hhit. simpl.
  unfold batchOf in Hfit.
  destruct (loader e after lag) as [[res next] er]. simpl in Hfit.
  destruct er as [x|].
  { eexists. split; [reflexivity|]. simpl. split; [reflexivity | exact Hlen]. }
  destruct (Z.of_nat (List.length res) =? 0).
  { eexists. split; [reflexivity|]. simpl. split; [reflexivity | exact Hlen]. }
  destruct (hasNonConsec res).
  { eexists. split; [reflexivity|]. simpl. split; [reflexivity | exact Hlen]. }
  destruct (negb (next =? getLastID res)).
  { eexists. split; [reflexivity|]. simpl. split; [reflexivity | exact Hlen]. }
  destruct (maybeUpdateUnsafe_len c res) as [Hl1 Hl2].
  destruct (maybeTrimUnsafe_ok (maybeUpdateUnsafe c res)) as [c' [Ht [Hl3 [Hl4 _]]]];
    [lia | lia |].
  rewrite Ht. simpl. eexists. split; [reflexivity|]. simpl.
  split; [congruence | lia].
Qed.

End CacheBounds.

Section CacheHitIds.

Import CacheProps Examples.


Lemma skipn_nth_cons (n : nat) (l : list Event) :
  (n < List.length l)%nat ->
  skipn n l = nth n l zeroEvent :: skipn (S n) l.
Proof.
  revert l. induction n as [|n IH]; intros l Hn.
  - destruct l; [simpl in Hn; lia | reflexivity].
  - destruct l as [|a l]; [simpl in Hn; lia|].
    simpl in Hn. change (skipn (S n) (a :: l)) with (skipn n l).
    rewrite (IH l) by lia. reflexivity.
Qed.

Lemma last_skipn (n : nat) (l : list Event) :
  (n < List.length l)%nat -> last (skipn n l) zeroEvent = last l zeroEvent.
Proof.
  revert l. induction n as [|n IH]; intros l Hn; [reflexivity|].
  destruct l as [|a l]; [simpl in Hn; lia|].
  simpl in Hn. change (skipn (S n) (a :: l)) with (skipn n l).
  rewrite IH by lia. destruct l; [simpl in Hn; lia | reflexivity].
Qed.






End CacheHitIds.

Section CacheReadThrough.

Import CacheProps Examples.

Lemma last_app_nonempty (l1 l2 : list Event) :
  l2 <> [] -> last (l1 ++ l2) zeroEvent = last l2 zeroEvent.
Proof.
  intros Hne. induction l1 as [|a l1 IH]; [reflexivity|].
  simpl. rewrite IH. destruct (l1 ++ l2) eqn:Happ; [|reflexivity].
  apply app_eq_nil in Happ as [_ H2]. congruence.
Qed.

Lemma tailUnsafe_last (c : rcache) :
  cache c <> [] -> tailUnsafe c = IDInt (last (cache c) zeroEvent).
Proof.
  unfold tailUnsafe, emptyUnsafe, lenUnsafe.
  destruct (cache c); [congruence | reflexivity].
Qed.

Lemma Forall_skipn_events (P : Event -> Prop) (n : nat) (l : list Event) :
  Forall P l -> Forall P (skipn n l).
Proof.
  revert l. induction n as [|n IH]; intros l H; [exact H|].
  destruct l as [|a l]; [exact H|]. inversion H; subst. apply IH. assumption.
Qed.

(** X3.  A loader error on read-through comes back as it is, with no
    events and a zero cursor; the cache stays as it was and a miss is
    counted. *)
Theorem Load_passes_loader_error (e : env) (c : rcache) (m : metrics)
  (after lag : Z) (res : list Event) (next : Z) (x : error) :
  missesCache c after ->
  loader e after lag = (res, next, Some x) ->
  Load e c m after lag =
    Ok (mkLoadRet [] 0 (Some x) c
          (mkMetrics (rcacheHitsCounter m) (S (rcacheMissCounter m)))
          [(after, lag)]).
Proof.
  intros Hmiss Hld.
  pose proof (maybeHitUnsafe_miss c (now e) after lag Hmiss) as Hm.
  unfold Load. rewrite Hm. simpl. unfold readThrough. rewrite Hm. simpl.
  rewrite Hld. reflexivity.
Qed.

Lemma Load_passes_loader_error_witness :
  Load (mkEnv 100 (constLoader ([], 0, Some (ErrExternal "db down"))))
       newRCache m0 0 0 =
    Ok (mkLoadRet [] 0 (Some (ErrExternal "db down")) newRCache
          (mkMetrics 0 1) [(0, 0)]).
Proof.
  apply (Load_passes_loader_error
           (mkEnv 100 (constLoader ([], 0, Some (ErrExternal "db down"))))
           newRCache m0 0 0 [] 0 (ErrExternal "db down")).
  - right. vm_compute. reflexivity.
  - reflexivity.
Defined.



Lemma maybeUpdateUnsafe_adopts (c : rcache) (e0 : Event) (rest : list Event) :
  cache c = [] \/ add64 (tailUnsafe c) 1 <= IDInt e0 ->
  cache (maybeUpdateUnsafe c (e0 :: rest)) = e0 :: rest \/
  (cache c <> [] /\ add64 (tailUnsafe c) 1 = IDInt e0 /\
   cache (maybeUpdateUnsafe c (e0 :: rest)) = cache c ++ e0 :: rest).
Proof.
  intros Hadopt. unfold maybeUpdateUnsafe.
  destruct (emptyUnsafe c) eqn:Hempty; [left; reflexivity|].
  assert (Hne : cache c <> []).
  { unfold emptyUnsafe, lenUnsafe in Hempty.
    destruct (cache c); [discriminate | discriminate]. }
  destruct Hadopt as [Hnil|Hle]; [contradiction|].
  destruct (Z.ltb_spec (add64 (tailUnsafe c) 1) (IDInt e0)); [left; reflexivity|].
  destruct (Z.eqb_spec (add64 (tailUnsafe c) 1) (IDInt e0)); [|lia].
  right. repeat split; assumption.
Qed.

(** X5.  A valid batch read through is returned as the wrapped loader
    gave it, with its next cursor and no error, after one loader call;
    when the batch is adopted (the cache is empty or the batch starts at
    or beyond the id after the tail) and the limit is at least 1, the
    cache then ends at the returned cursor. *)
Theorem readThrough_returns_and_caches_batch (e : env) (c : rcache)
  (m : metrics) (after lag : Z) (res : list Event) (next : Z) :
  missesCache c after ->
  loader e after lag = (res, next, None) ->
  res <> [] -> consecutive res -> next = getLastID res ->
  1 <= limit c ->
  lenUnsafe c + Z.of_nat (List.length res) <= max_int64 ->
  exists r,
    Load e c m after lag = Ok r /\
    events r = res /\ nextCursor r = next /\ err r = None /\
    loaderCalls r = [(after, lag)] /\
    (cache c = [] \/ add64 (tailUnsafe c) 1 <= IDInt (hd zeroEvent res) ->
     tailUnsafe (rc r) = next).
Proof.
  intros Hmiss Hld Hne Hcons Hnext Hlim Hfit.
  pose proof (maybeHitUnsafe_miss c (now e) after lag Hmiss) as Hm.
  destruct (maybeUpdateUnsafe_len c res) as [Hl1 Hl2].
  destruct (maybeTrimUnsafe_ok (maybeUpdateUnsafe c res))
    as [c' [Ht [Hl3 [Hl4 Hcache]]]]; [lia | lia |].
  unfold Load. rewrite Hm. simpl. unfold readThrough. rewrite Hm. simpl.
  rewrite Hld.
  assert (Hlen : (Z.of_nat (List.length res) =? 0) = false)
    by (destruct res; [congruence | reflexivity]).
  rewrite Hlen. rewrite (proj2 (hasNonConsec_false res) Hcons).
  rewrite Hnext, Z.eqb_refl. simpl. rewrite Ht. simpl.
  eexists. split; [reflexivity|]. simpl. repeat split.
  intros Hadopt. destruct res as [|e0 rest]; [congruence|]. simpl in Hadopt.
  assert (Hlast : cache (maybeUpdateUnsafe c (e0 :: rest)) <> [] /\
                  last (cache (maybeUpdateUnsafe c (e0 :: rest))) zeroEvent
                    = last (e0 :: rest) zeroEvent).
  { destruct (maybeUpdateUnsafe_adopts c e0 rest Hadopt) as [-> | [_ [_ ->]]].
    - split; [discriminate | reflexivity].
    - split; [destruct (cache c); discriminate|].
      apply last_app_nonempty. discriminate. }
  destruct Hlast as [Hnonempty Hlast].
  set (U := maybeUpdateUnsafe c (e0 :: rest)) in *.
  assert (Hk : (Z.to_nat (lenUnsafe U - limit U) < List.length (cache U))%nat).
  { assert (Hpos : (0 < List.length (cache U))%nat)
      by (destruct (cache U); [congruence | simpl; lia]).
    unfold lenUnsafe. lia. }
  assert (Hc' : cache c' <> []).
  { rewrite Hcache, (skipn_nth_cons _ _ Hk). discriminate. }
  rewrite (tailUnsafe_last c' Hc'), Hcache, (last_skipn _ _ Hk), Hlast.
  reflexivity.
Qed.

Lemma readThrough_returns_and_caches_batch_witness :
  exists r,
    Load (envAt 100 rows12) newRCache m0 0 0 = Ok r /\
    events r = rows12 /\ nextCursor r = 2 /\ err r = None /\
    loaderCalls r = [(0, 0)] /\
    (cache newRCache = [] \/
     add64 (tailUnsafe newRCache) 1 <= IDInt (hd zeroEvent rows12) ->
     tailUnsafe (rc r) = 2).
Proof.
  apply (readThrough_returns_and_caches_batch (envAt 100 rows12) newRCache m0
           0 0 rows12 2).
  - right. vm_compute. reflexivity.
  - reflexivity.
  - discriminate.
  - simpl. split; [vm_compute; reflexivity | exact I].
  - reflexivity.
  - vm_compute. discriminate.
  - vm_compute. discriminate.
Defined.



End CacheReadThrough.

Section CacheServesWhatItRead.

Import CacheProps Examples.

Lemma maybeTrimUnsafe_suffix (c c' : rcache) :
  maybeTrimUnsafe c = Ok c' ->
  exists n, cache c' = skipn n (cache c) /\ limit c' = limit c.
Proof.
  unfold maybeTrimUnsafe. destruct (lenUnsafe c >? limit c).
  - destruct ((0 <=? sub64 (lenUnsafe c) (limit c)) &&
              (sub64 (lenUnsafe c) (limit c) <=? lenUnsafe c)); [|discriminate].
    intros H. injection H as <-. eexists. split; reflexivity.
  - intros H. injection H as <-. exists 0%nat. split; reflexivity.
Qed.

Lemma maybeUpdateUnsafe_ids (c : rcache) (el : list Event) :
  idsInt64 (cache c) -> idsInt64 el -> idsInt64 (cache (maybeUpdateUnsafe c el)).
Proof.
  intros Hc Hel. unfold maybeUpdateUnsafe.
  destruct el as [|e0 el']; [exact Hc|].
  destruct (emptyUnsafe c); [exact Hel|].
  destruct (add64 (tailUnsafe c) 1 <? IDInt e0); [exact Hel|].
  destruct (add64 (tailUnsafe c) 1 =? IDInt e0); [|exact Hc].
  simpl. apply Forall_app. split; assumption.
Qed.

(** The cache after a completed [Load] is the old one, or the old one
    updated with the wrapped loader's batch and trimmed. *)
Lemma Load_cache_batch (e : env) (c : rcache) (m : metrics) (after lag : Z)
  (r : LoadRet) :
  Load e c m after lag = Ok r ->
  rc r = c \/
  maybeTrimUnsafe (maybeUpdateUnsafe c (batchOf e after lag)) = Ok (rc r).
Proof.
  unfold Load, batchOf.
  destruct (maybeHitUnsafe c (now e) (add64 after 1) lag) as [[hit ok]|] eqn:Hhit;
    simpl; [|discriminate].
  destruct ok; [intros H; injection H as <-; left; reflexivity|].
  unfold readThrough. rewrite Hhit. simpl.
  destruct (loader e after lag) as [[res next] er]. simpl.
  destruct er as [x|]; [intros H; injection H as <-; left; reflexivity|].
  destruct (Z.of_nat (List.length res) =? 0);
    [intros H; injection H as <-; left; reflexivity|].
  destruct (hasNonConsec res); [intros H; injection H as <-; left; reflexivity|].
  destruct (negb (next =? getLastID res));
    [intros H; injection H as <-; left; reflexivity|].
  destruct (maybeTrimUnsafe (maybeUpdateUnsafe c res)) as [c'|]; simpl;
    [|discriminate].
  intros H. injection H as <-. right. reflexivity.
Qed.

(** [Load] keeps the cache well-formed whenever the wrapped loader's
    batch has [int64] ids and fits an [int] beside the cache. *)
Lemma Load_keeps_wellFormed (e : env) (c : rcache) (m : metrics)
  (after lag : Z) (r : LoadRet) :
  wellFormed c ->
  idsInt64 (batchOf e after lag) ->
  lenUnsafe c + Z.of_nat (List.length (batchOf e after lag)) <= max_int64 ->
  Load e c m after lag = Ok r ->
  wellFormed (rc r).
Proof.
  intros Hwf Hids Hfit HL.
  pose proof (Load_consecutive _ _ _ _ _ _ (proj1 Hwf) HL) as Hcons.
  destruct (Load_cache_batch _ _ _ _ _ _ HL) as [-> | Ht]; [exact Hwf|].
  destruct Hwf as [_ [Hcids Hlen]].
  destruct (maybeTrimUnsafe_suffix _ _ Ht) as [n [Hn _]].
  destruct (maybeUpdateUnsafe_len c (batchOf e after lag)) as [_ Hl2].
  repeat split.
  - exact Hcons.
  - rewrite Hn. apply Forall_skipn_events.
    apply maybeUpdateUnsafe_ids; assumption.
  - unfold lenUnsafe in *. rewrite Hn, length_skipn. lia.
Qed.






(** X1.  [Load] is safe on a well-formed cache and keeps it so.  When
    the cache holds consecutive [int64] ids within a limit that is not
    negative, and the wrapped loader's batch has [int64] ids and fits an
    [int] beside the cache, [Load] never panics, whatever the cursor, the
    lag and the time; afterwards the cache is again well-formed, has the
    same limit and holds at most [limit] events. *)
Theorem Load_is_safe_and_keeps_invariant (e : env) (c : rcache) (m : metrics)
  (after lag : Z) :
  wellFormed c -> 0 <= limit c -> lenUnsafe c <= limit c ->
  idsInt64 (batchOf e after lag) ->
  lenUnsafe c + Z.of_nat (List.length (batchOf e after lag)) <= max_int64 ->
  exists r,
    Load e c m after lag = Ok r /\
    wellFormed (rc r) /\ limit (rc r) = limit c /\ lenUnsafe (rc r) <= limit c.
Proof.
  intros Hwf Hlim Hlen Hids Hfit.
  destruct (Load_completes_within_limit e c m after lag Hwf Hlim Hlen Hfit)
    as [r [HL [H1 H2]]].
  exists r. split; [exact HL|]. split; [|split; assumption].
  exact (Load_keeps_wellFormed e c m after lag r Hwf Hids Hfit HL).
Qed.

Lemma Load_is_safe_and_keeps_invariant_witness :
  exists r,
    Load (envAt 100 rows12) cache12 m0 2 0 = Ok r /\
    wellFormed (rc r) /\ limit (rc r) = limit cache12 /\
    lenUnsafe (rc r) <= limit cache12.
Proof.
  apply (Load_is_safe_and_keeps_invariant (envAt 100 rows12) cache12 m0 2 0).
  - split; [|split].
    + simpl. split; [vm_compute; reflexivity | exact I].
    + repeat constructor; vm_compute; discriminate.
    + vm_compute. discriminate.
  - vm_compute. discriminate.
  - vm_compute. discriminate.
  - constructor.
  - vm_compute. discriminate.
Defined.

End CacheServesWhatItRead.

(** ** The stream client: order, errors and the buffer *)

Section StreamDelivery.

Import Rsql StreamProps Examples.

Variable LS : Type.
Variable sloader : env -> LS -> Z -> Z -> outcome (LoadResult * LS).

Lemma ascendingFrom_weaken (c c' : Z) (l : list Event) :
  c' <= c -> ascendingFrom c l -> ascendingFrom c' l.
Proof. destruct l as [|e t]; simpl; [tauto|]. intros H [H1 H2]. split; [lia | exact H2]. Qed.

Lemma ascendingFrom_increasing (c : Z) (l : list Event) :
  ascendingFrom c l -> strictlyIncreasing l.
Proof. destruct l as [|e t]; simpl; tauto. Qed.

(** X8.  Buffered events are delivered first, in order, without asking
    the loader: on a client past its initialisation with [n] buffered
    events, [n] calls of [Recv] under a live context return exactly the
    buffer, leave the loader's state untouched whatever the loader would
    have done, empty the buffer and end with the cursor at the last id. *)
Theorem Recv_drains_buffer_in_order (ws : list recvEnv) (s : streamclient)
  (ls : LS) :
  StreamFromHead s = false -> after s = EmptyString ->
  Forall liveCtx ws -> List.length ws = List.length (buf s) ->
  recvMany sloader ws s ls =
    (map Returned (buf s),
     mkStream false (Lag s) (backoff s) EmptyString
       (match buf s with [] => prev s | _ => getLastID (buf s) end) [],
     ls).
Proof.
  revert s. induction ws as [|w ws IH]; intros s Hh Ha Hlive Hlen.
  - destruct s as [h lg bo a p b]. simpl in *. subst h a.
    destruct b; [reflexivity | discriminate].
  - destruct s as [h lg bo a p b]. simpl in Hh, Ha, Hlen. subst h a.
    destruct b as [|e rest]; [discriminate|].
    inversion Hlive as [|w' ws' Hw Hws]; subst.
    unfold liveCtx in Hw.
    cbn [recvMany]. unfold Recv. rewrite Hw. cbn [StreamFromHead after].
    cbn [String.eqb negb]. 
    assert (Hloop : recvLoop LS sloader (polls w) (mkStream false lg bo "" p (e :: rest)) ls
                    = (Returned e, mkStream false lg bo "" (IDInt e) rest, ls)).
    { destruct (polls w); reflexivity. }
    rewrite Hloop.
    rewrite (IH (mkStream false lg bo "" (IDInt e) rest)); try reflexivity;
      [| exact Hws | simpl in *; lia].
    cbn [buf Lag backoff prev map]. f_equal. f_equal.
    destruct rest; reflexivity.
Qed.

(** *** Where the errors of [Recv] come from *)

Lemma recvLoop_error_source (ps : list poll) (s s' : streamclient)
  (ls ls' : LS) (x : error) :
  recvLoop LS sloader ps s ls = (Failed x, s', ls') ->
  exists p, In p ps /\
    (waitErr p = Some x \/
     exists ls0 cur el next ls1,
       sloader (pollEnv p) ls0 cur (Lag s) = Ok ((el, next, Some x), ls1)).
Proof.
  revert s ls. induction ps as [|p ps IH]; intros s ls; simpl.
  - destruct (negb (Z.of_nat (List.length (buf s)) =? 0)); [|discriminate].
    unfold popBuf. destruct (buf s); discriminate.
  - destruct (negb (Z.of_nat (List.length (buf s)) =? 0)).
    { unfold popBuf. destruct (buf s); discriminate. }
    destruct (sloader (pollEnv p) ls (prev s) (Lag s))
      as [[[[el next] er] ls1]|] eqn:Hld; [|discriminate].
    destruct er as [y|].
    { intros H. injection H as <- _ _. exists p. split; [left; reflexivity|].
      right. exists ls, (prev s), el, next, ls1. exact Hld. }
    destruct (Z.of_nat (List.length el) >? 0).
    { unfold popBuf. simpl. destruct el; discriminate. }
    unfold wait. simpl backoff.
    destruct (backoff s =? 0).
    + intros H. apply IH in H. destruct H as [q [Hq Hsrc]].
      exists q. split; [right; exact Hq | exact Hsrc].
    + destruct (waitErr p) as [y|] eqn:Hw.
      * intros H. injection H as <- _ _. exists p.
        split; [left; reflexivity | left; exact Hw].
      * intros H. apply IH in H. destruct H as [q [Hq Hsrc]].
        exists q. split; [right; exact Hq | exact Hsrc].
Qed.

(** X9.  [Recv] makes up no error but [ErrInvalidIntID]: an error it
    returns is the context's error, the error of the latest-id query
    (with the from-head option), [ErrInvalidIntID] for a cursor string
    that does not parse, an error the loader returned in one of its
    polls, or the error its wait ended with. *)
Theorem Recv_error_source (w : recvEnv) (s s' : streamclient) (ls ls' : LS)
  (x : error) :
  Recv LS sloader w s ls = (Failed x, s', ls') ->
  ctxErr w = Some x \/
  (StreamFromHead s = true /\ snd (latestID w) = Some x) \/
  (x = ErrInvalidIntID /\ StreamFromHead s = false /\
   after s <> EmptyString /\ snd (Strconv.ParseInt (after s)) <> None) \/
  (exists p, In p (polls w) /\
     (waitErr p = Some x \/
      exists ls0 cur el next ls1,
        sloader (pollEnv p) ls0 cur (Lag s) = Ok ((el, next, Some x), ls1))).
Proof.
  unfold Recv. destruct (ctxErr w) as [y|].
  { intros H. injection H as <- _ _. left. reflexivity. }
  destruct (StreamFromHead s) eqn:Hh.
  - destruct (latestID w) as [id [y|]].
    + intros H. injection H as <- _ _. right. left. split; reflexivity.
    + intros H. apply recvLoop_error_source in H. right. right. right. exact H.
  - destruct (String.eqb_spec (after s) "") as [Ha|Ha]; simpl.
    + intros H. apply recvLoop_error_source in H. right. right. right. exact H.
    + destruct (Strconv.ParseInt (after s)) as [id [y|]].
      * intros H. injection H as <- _ _. right. right. left.
        repeat split; try assumption; discriminate.
      * intros H. apply recvLoop_error_source in H. right. right. right. exact H.
Qed.

(** *** No panic of its own *)

Lemma recvLoop_no_crash (ps : list poll) (s : streamclient) (ls : LS) :
  loaderNeverPanics sloader ->
  fst (fst (recvLoop LS sloader ps s ls)) <> Crashed.
Proof.
  intros Hnp. revert s ls. induction ps as [|p ps IH]; intros s ls; simpl.
  - destruct (buf s) as [|e rest] eqn:Hb; simpl.
    + discriminate.
    + unfold popBuf. rewrite Hb. discriminate.
  - destruct (buf s) as [|e rest] eqn:Hb; simpl.
    2:{ unfold popBuf. rewrite Hb. discriminate. }
    destruct (sloader (pollEnv p) ls (prev s) (Lag s))
      as [[[[el next] er] ls1]|] eqn:Hld.
    2:{ exfalso. exact (Hnp _ _ _ _ Hld). }
    destruct er as [y|]; [discriminate|].
    destruct el as [|e0 rest0]; simpl.
    + destruct (wait (backoff s) p); [discriminate | apply IH].
    + discriminate.
Qed.

(** X10.  [Recv] never panics on its own account: it pops the buffer
    only when the buffer holds an event, so over a loader that returns
    from every call [Recv] does not crash, whatever the client state and
    the outside world. *)
Theorem Recv_never_crashes (w : recvEnv) (s : streamclient) (ls : LS) :
  loaderNeverPanics sloader ->
  fst (fst (Recv LS sloader w s ls)) <> Crashed.
Proof.
  intros Hnp. unfold Recv. destruct (ctxErr w); [discriminate|].
  destruct (StreamFromHead s).
  - destruct (latestID w) as [id [y|]]; [discriminate|].
    apply recvLoop_no_crash. exact Hnp.
  - destruct (negb (String.eqb (after s) "")).
    + destruct (Strconv.ParseInt (after s)) as [id [y|]]; [discriminate|].
      apply recvLoop_no_crash. exact Hnp.
    + apply recvLoop_no_crash. exact Hnp.
Qed.

(** *** Delivery order *)

Hypothesis contract : loaderContract sloader.

Lemma recvMany_ready_ascending (ws : list recvEnv) (s s' : streamclient)
  (ls ls' : LS) (rs : list recvResult) :
  clientReady s ->
  recvMany sloader ws s ls = (rs, s', ls') ->
  ascendingFrom (prev s) (returned rs).
Proof.
  revert s ls rs. induction ws as [|w ws IH]; intros s ls rs Hs; simpl.
  - intros H. injection H as <- _ _. exact I.
  - destruct (Recv LS sloader w s ls) as [[r s1] ls1] eqn:HR.
    destruct (recvMany sloader ws s1 ls1) as [[rs1 s2] ls2] eqn:HM.
    intros H. injection H as <- <- <-.
    destruct (Recv_ready LS sloader contract _ _ _ _ _ _ Hs HR) as [Hs1 [Hle Hret]].
    specialize (IH s1 ls1 rs1 Hs1 HM).
    destruct r as [e| | |]; simpl;
      try (apply (ascendingFrom_weaken (prev s1)); assumption).
    split; [apply Hret; reflexivity|].
    rewrite <- (Recv_cursor LS sloader _ _ _ _ _ _ HR). exact IH.
Qed.

(** A [Recv] on a client that has not delivered yet either fails and
    leaves it so, or leaves it ready. *)
Lemma Recv_starting (w : recvEnv) (s s1 : streamclient) (ls ls1 : LS)
  (r : recvResult) :
  clientStarting s -> Recv LS sloader w s ls = (r, s1, ls1) ->
  (clientStarting s1 /\ forall e, r <> Returned e) \/ clientReady s1.
Proof.
  intros [Hb Hopt]. unfold Recv. destruct (ctxErr w).
  { intros H. injection H as <- <- _. left. split; [split; assumption | discriminate]. }
  destruct (StreamFromHead s) eqn:Hh.
  - destruct Hopt as [Hf | Ha]; [discriminate|].
    destruct (latestID w) as [id [y|]].
    + intros H. injection H as <- <- _. left.
      split; [split; [exact Hb | right; exact Ha] | discriminate].
    + intros H. right.
      apply (recvLoop_ready LS sloader contract) in H; [apply H|].
      unfold clientReady. simpl. rewrite Ha, Hb. repeat split.
  - destruct (String.eqb_spec (after s) "") as [Ha|Ha]; simpl.
    + intros H. right.
      apply (recvLoop_ready LS sloader contract) in H; [apply H|].
      unfold clientReady. rewrite Hb. repeat split; assumption.
    + destruct (Strconv.ParseInt (after s)) as [id [y|]].
      * intros H. injection H as <- <- _. left.
        split; [split; [exact Hb | left; reflexivity] | discriminate].
      * intros H. right.
        apply (recvLoop_ready LS sloader contract) in H; [apply H|].
        unfold clientReady. simpl. rewrite Hb. repeat split.
Qed.

(** X11.  Over a loader that keeps its contract (batches above the
    cursor in increasing order, no step back on an empty batch), the
    events a client delivers over any sequence of [Recv] calls, failed
    calls included, have strictly increasing ids, for a client made with
    the from-head option or with a cursor string, not both. *)
Theorem Recv_delivers_increasing_ids (ws : list recvEnv) (s s' : streamclient)
  (ls ls' : LS) (rs : list recvResult) :
  clientStarting s ->
  recvMany sloader ws s ls = (rs, s', ls') ->
  strictlyIncreasing (returned rs).
Proof.
  revert s ls rs. induction ws as [|w ws IH]; intros s ls rs Hs; simpl.
  - intros H. injection H as <- _ _. exact I.
  - destruct (Recv LS sloader w s ls) as [[r s1] ls1] eqn:HR.
    destruct (recvMany sloader ws s1 ls1) as [[rs1 s2] ls2] eqn:HM.
    intros H. injection H as <- <- <-.
    destruct (Recv_starting _ _ _ _ _ _ Hs HR) as [[Hs1 Hno] | Hready].
    + specialize (IH s1 ls1 rs1 Hs1 HM).
      destruct r as [e| | |]; simpl; try exact IH.
      exfalso. exact (Hno e eq_refl).
    + pose proof (recvMany_ready_ascending _ _ _ _ _ _ Hready HM) as Hasc.
      destruct r as [e| | |]; simpl;
        try (apply (ascendingFrom_increasing (prev s1)); exact Hasc).
      rewrite <- (Recv_cursor LS sloader _ _ _ _ _ _ HR). exact Hasc.
Qed.

End StreamDelivery.

Section StreamDeliveryExamples.

Import Rsql StreamProps Examples MoreExamples.

Lemma Recv_drains_buffer_in_order_witness :
  recvMany (buildLoader true) [firstRecv; secondRecv]
    (mkStream false 0 5 "" 0 rows12) (newRCache, m0) =
    (map Returned rows12, mkStream false 0 5 "" 2 [], (newRCache, m0)).
Proof.
  apply (Recv_drains_buffer_in_order loaderState (buildLoader true)
           [firstRecv; secondRecv] (mkStream false 0 5 "" 0 rows12)
           (newRCache, m0)).
  - reflexivity.
  - reflexivity.
  - repeat constructor.
  - reflexivity.
Defined.

Lemma Recv_error_source_witness :
  ctxErr dbDownRecv = Some (ErrExternal "db down") \/
  (StreamFromHead (Stream "" false 0 5) = true /\
   snd (latestID dbDownRecv) = Some (ErrExternal "db down")) \/
  (ErrExternal "db down" = ErrInvalidIntID /\
   StreamFromHead (Stream "" false 0 5) = false /\
   after (Stream "" false 0 5) <> EmptyString /\
   snd (Strconv.ParseInt (after (Stream "" false 0 5))) <> None) \/
  (exists p, In p (polls dbDownRecv) /\
     (waitErr p = Some (ErrExternal "db down") \/
      exists ls0 cur el next ls1,
        buildLoader false (pollEnv p) ls0 cur (Lag (Stream "" false 0 5))
          = Ok ((el, next, Some (ErrExternal "db down")), ls1))).
Proof.
  apply (Recv_error_source loaderState (buildLoader false) dbDownRecv
           (Stream "" false 0 5) (Stream "" false 0 5)
           (newRCache, m0) (newRCache, m0) (ErrExternal "db down")).
  vm_compute. reflexivity.
Defined.

Lemma buildLoader_uncached_never_panics : loaderNeverPanics (buildLoader false).
Proof. intros e ls after lag. unfold buildLoader. discriminate. Qed.

Lemma Recv_never_crashes_witness :
  fst (fst (Recv loaderState (buildLoader false) headFirstRecv headClient
              (newRCache, m0))) <> Crashed.
Proof.
  apply (Recv_never_crashes loaderState (buildLoader false) headFirstRecv
           headClient (newRCache, m0)).
  exact buildLoader_uncached_never_panics.
Defined.

Lemma rows12Loader_keeps_contract : loaderContract rows12Loader.
Proof. exact uncached_table_keeps_contract. Qed.

Lemma Recv_delivers_increasing_ids_witness :
  strictlyIncreasing
    (returned [Returned (ev 1 10); Failed (ErrCtx "context canceled");
               Returned (ev 2 95)]).
Proof.
  apply (Recv_delivers_increasing_ids loaderState rows12Loader
           rows12Loader_keeps_contract
           [firstRecv; cancelledRecv; secondRecv] (Stream "" false 0 5)
           (mkStream false 0 5 "" 2 []) (newRCache, m0) (newRCache, m0)).
  - split; [reflexivity | left; reflexivity].
  - vm_compute. reflexivity.
Defined.

End StreamDeliveryExamples.

(** ** The insert path and the notifier, continued *)

Section NotifierSignals.

Import Rsql Examples.

Lemma setNth_nth_other (i j : nat) (c : chan) (h : chanHeap) :
  i <> j -> nth_error (setNth i c h) j = nth_error h j.
Proof.
  revert i j. induction h as [|x t IH]; intros i j Hne.
  - destruct i; reflexivity.
  - destruct i, j; simpl; try reflexivity; try congruence.
    apply IH. congruence.
Qed.

Lemma setNth_nth_same (i : nat) (c x : chan) (h : chanHeap) :
  nth_error h i = Some x -> nth_error (setNth i c h) i = Some c.
Proof.
  revert i. induction h as [|y t IH]; intros i H.
  - destruct i; discriminate.
  - destruct i; simpl in *; [reflexivity | apply IH; exact H].
Qed.

(** One non-blocking send leaves every other channel as it is and the
    channel itself with its capacity and at least the values it had. *)
Lemma selectSendDefault_effect (h : chanHeap) (l ch : nat) (q : nat) :
  nth_error h ch = Some (mkChan 1 q) -> (q <= 1)%nat ->
  exists q', nth_error (selectSendDefault h l) ch = Some (mkChan 1 q') /\
             (q <= q' <= 1)%nat /\ (l = ch -> q' = 1%nat).
Proof.
  intros Hch Hq. unfold selectSendDefault, chanSend.
  destruct (Nat.eq_dec l ch) as [->|Hne].
  - rewrite Hch. simpl.
    destruct (Nat.ltb_spec q 1).
    + exists 1%nat. rewrite (setNth_nth_same _ _ _ _ Hch).
      assert (q = 0%nat) by lia. subst q. repeat split; lia.
    + exists q. split; [exact Hch|]. split; lia.
  - destruct (nth_error h l) as [c|]; [|exists q; repeat split; try lia; congruence].
    destruct (Nat.ltb (queued c) (capacity c)).
    + exists q. rewrite setNth_nth_other by exact Hne.
      repeat split; try lia; congruence.
    + exists q. repeat split; try lia; congruence.
Qed.

Lemma notifyLoop_signals (ls : list nat) (h : chanHeap) (ch q : nat) :
  nth_error h ch = Some (mkChan 1 q) -> (q <= 1)%nat ->
  exists h' q',
    notifyLoop ls h = Done h' /\ nth_error h' ch = Some (mkChan 1 q') /\
    (q <= q' <= 1)%nat /\ (In ch ls -> q' = 1%nat).
Proof.
  revert h q. induction ls as [|l rest IH]; intros h q Hch Hq; simpl.
  - exists h, q. repeat split; try assumption; try lia; try (intros []).
  - destruct (selectSendDefault_effect h l ch q Hch Hq) as [q1 [H1 [H2 H3]]].
    destruct (IH _ q1 H1 ltac:(lia)) as [h' [q' [Hd [Hn [Hb Hin]]]]].
    exists h', q'. repeat split; try assumption; try lia.
    intros [Hl | Hr]; [specialize (H3 Hl); lia | exact (Hin Hr)].
Qed.

Lemma notifyLoop_completes (ls : list nat) (h : chanHeap) :
  exists h', notifyLoop ls h = Done h'.
Proof.
  revert h. induction ls as [|l rest IH]; intros h; simpl;
    [exists h; reflexivity | apply IH].
Qed.

(** X12.  A listener registered with [C] is signalled by the next
    [Notify]: whatever the notifier's state, after [C] and one [Notify]
    the channel [C] returned holds exactly one value in its one-slot
    buffer, the listener list is empty, and a further [Notify] sends
    nothing more. *)
Theorem registered_listener_is_signalled (n : inmemNotifier) :
  exists h',
    Notify (snd (C n)) = Done (mkInmem [] h') /\
    nth_error h' (fst (C n)) = Some (mkChan 1 1) /\
    Notify (mkInmem [] h') = Done (mkInmem [] h').
Proof.
  unfold C, Notify. simpl.
  destruct (notifyLoop_signals (listeners n ++ [List.length (heap n)])
              (heap n ++ [mkChan 1 0]) (List.length (heap n)) 0)
    as [h' [q' [Hd [Hn [_ Hin]]]]].
  - rewrite nth_error_app2 by lia. rewrite Nat.sub_diag. reflexivity.
  - lia.
  - exists h'. rewrite Hd. repeat split.
    rewrite Hn. rewrite Hin; [reflexivity|].
    apply in_or_app. right. left. reflexivity.
Qed.

Lemma notifyLoop_other_channels (ls : list nat) (h : chanHeap) (ch : nat) :
  ~ In ch ls ->
  exists h', notifyLoop ls h = Done h' /\ nth_error h' ch = nth_error h ch.
Proof.
  revert h. induction ls as [|l rest IH]; intros h Hnot; simpl.
  - exists h. split; reflexivity.
  - destruct (IH (selectSendDefault h l)) as [h' [Hd Hn]].
    { intros Hin. apply Hnot. right. exact Hin. }
    exists h'. split; [exact Hd|]. rewrite Hn.
    unfold selectSendDefault, chanSend.
    destruct (nth_error h l) as [c|]; [|reflexivity].
    destruct (Nat.ltb (queued c) (capacity c)); [|reflexivity].
    apply setNth_nth_other. intros ->. apply Hnot. left. reflexivity.
Qed.

(** X13.  [Notify] touches registered channels only: a channel that is
    not among the listeners is exactly as it was after [Notify], however
    many listeners there are. *)
Theorem Notify_leaves_other_channels (n : inmemNotifier) (ch : nat) :
  ~ In ch (listeners n) ->
  exists h', Notify n = Done (mkInmem [] h') /\
             nth_error h' ch = nth_error (heap n) ch.
Proof.
  intros Hnot. unfold Notify.
  destruct (notifyLoop_other_channels (listeners n) (heap n) ch Hnot)
    as [h' [Hd Hn]].
  exists h'. rewrite Hd. split; [reflexivity | exact Hn].
Qed.

Lemma Notify_leaves_other_channels_witness :
  exists h', Notify (mkInmem [1%nat] [mkChan 1 0; mkChan 1 0])
               = Done (mkInmem [] h') /\
             nth_error h' 0 = nth_error [mkChan 1 0; mkChan 1 0] 0.
Proof.
  apply (Notify_leaves_other_channels
           (mkInmem [1%nat] [mkChan 1 0; mkChan 1 0]) 0).
  simpl. intros [H | []]. discriminate.
Defined.

(** X14.  A successful insert was for a real event and can be notified:
    when [InsertWithMetadata] returns no error, the inputs are not the
    noop sentinel, the SQL insert was issued exactly once and succeeded,
    and calling the returned function on an in-memory notifier completes
    and leaves no listener registered. *)
Theorem insert_success_notifies
  (insertEvent : string -> Z -> list Z -> option error)
  (foreignID : string) (typ : Z) (metadata : list Z)
  (fn : NotifyFunc) (calls : list (string * Z)) :
  InsertWithMetadata insertEvent foreignID typ metadata = (fn, None, calls) ->
  isNoop foreignID typ = false /\
  calls = [(foreignID, typ)] /\
  insertEvent foreignID typ metadata = None /\
  forall n, exists h', callNotify fn n = Ok (Done (mkInmem [] h')).
Proof.
  unfold InsertWithMetadata.
  destruct (isNoop foreignID typ); [discriminate|].
  destruct (insertEvent foreignID typ metadata) as [x|]; [discriminate|].
  intros H. injection H as <- <-. repeat split.
  intros n. simpl. unfold Notify.
  destruct (notifyLoop_completes (listeners n) (heap n)) as [h' Hh'].
  exists h'. rewrite Hh'. reflexivity.
Qed.

Lemma insert_success_notifies_witness :
  isNoop "order-17" 1 = false /\
  [("order-17"%string, 1)] = [("order-17"%string, 1)] /\
  (fun _ _ _ => @None error) "order-17"%string 1 (@nil Z) = None /\
  forall n, exists h', callNotify notifierNotify n = Ok (Done (mkInmem [] h')).
Proof.
  apply (insert_success_notifies (fun _ _ _ => None) "order-17" 1 []
           notifierNotify [("order-17"%string, 1)]).
  reflexivity.
Defined.

End NotifierSignals.

(** ** The blob cursor, continued *)

Section CursorParsing.

Import Strconv Strings Rblob CursorProps.
Local Open Scope string_scope.
Local Open Scope Z_scope.

Lemma Split_length (s : string) :
  List.length (Split s) = S (countPipes s).
Proof.
  induction s as [|c t IH]; [reflexivity|]. simpl.
  destruct (Ascii.eqb c "|"); simpl; [rewrite IH; reflexivity|].
  destruct (Split t) as [|h r]; [discriminate IH | exact IH].
Qed.

Lemma Split_elems_noPipe (s : string) :
  Forall (fun x => hasPipe x = false) (Split s).
Proof.
  induction s as [|c t IH]; simpl.
  - constructor; [reflexivity | constructor].
  - destruct (Ascii.eqb c "|") eqn:Hc.
    + constructor; [reflexivity | exact IH].
    + destruct (Split t) as [|h r].
      * constructor; [simpl; rewrite Hc; reflexivity | constructor].
      * inversion IH; subst. constructor; [|assumption].
        simpl. rewrite Hc. assumption.
Qed.

Lemma ParseInt_in_int64 (s : string) (i : Z) :
  ParseInt s = (i, None) -> in_int64 i.
Proof.
  unfold ParseInt. destruct s as [|c t]; [discriminate|].
  destruct (ParseUint (if Ascii.eqb c "+" then t
                       else if Ascii.eqb c "-" then t else String c t))
    as [un [[|]|]]; try discriminate.
  - destruct (negb (Ascii.eqb c "-") && (un >=? 2 ^ 63)); [discriminate|].
    destruct (Ascii.eqb c "-" && (un >? 2 ^ 63)); [discriminate|].
    intros H. injection H as <-.
    destruct (Ascii.eqb c "-"); apply wrap64_range.
  - destruct (negb (Ascii.eqb c "-") && (un >=? 2 ^ 63)); [discriminate|].
    destruct (Ascii.eqb c "-" && (un >? 2 ^ 63)); [discriminate|].
    intros H. injection H as <-.
    destruct (Ascii.eqb c "-"); apply wrap64_range.
Qed.

(** Parsing two or three separated fields, field by field. *)
Lemma parseCursor_two_fields (k f : string) :
  hasPipe k = false -> hasPipe f = false ->
  parseCursor (k ++ "|" ++ f) =
    match ParseInt f with
    | (_, Some _) => (zeroCursor, Some (ErrNew "invalid cursor offset"))
    | (i, None) => (mkCursor k i false, None)
    end.
Proof.
  intros Hk Hf. unfold parseCursor.
  change ("|" ++ f) with (String "|" f).
  rewrite append_pipe_not_empty.
  rewrite (Split_app_pipe k _ Hk), (Split_noPipe _ Hf). simpl.
  destruct (ParseInt f) as [i [x|]]; reflexivity.
Qed.

Lemma parseCursor_three_fields (k f l : string) :
  hasPipe k = false -> hasPipe f = false -> hasPipe l = false ->
  parseCursor (k ++ "|" ++ f ++ "|" ++ l) =
    match ParseInt f with
    | (_, Some _) => (zeroCursor, Some (ErrNew "invalid cursor offset"))
    | (i, None) =>
        if String.eqb l "last" then (mkCursor k i true, None)
        else (zeroCursor, Some (ErrNew "invalid cursor end"))
    end.
Proof.
  intros Hk Hf Hl. unfold parseCursor.
  change ("|" ++ f ++ "|" ++ l) with (String "|" (f ++ String "|" l)).
  rewrite append_pipe_not_empty.
  rewrite (Split_app_pipe k _ Hk), (Split_app_pipe f _ Hf), (Split_noPipe _ Hl).
  simpl. destruct (ParseInt f) as [i [x|]]; [reflexivity|].
  destruct (String.eqb l "last"); reflexivity.
Qed.

Lemma parseCursor_of_String (c : cursor) :
  hasPipe (Key c) = false -> in_int64 (Offset c) ->
  parseCursor (String_ c) = (c, None).
Proof.
  destruct c as [k off lst]. simpl. intros Hk Hoff.
  pose proof (FormatInt_noPipe off Hoff) as Hf.
  pose proof (ParseInt_FormatInt off Hoff) as Hp.
  unfold String_. simpl Key. simpl Offset. simpl Last.
  destruct lst.
  - rewrite append_assoc.
    change (("|" ++ FormatInt off) ++ "|last")
      with ("|" ++ FormatInt off ++ "|" ++ "last").
    rewrite (parseCursor_three_fields k (FormatInt off) "last" Hk Hf eq_refl).
    rewrite Hp. reflexivity.
  - rewrite (parseCursor_two_fields k (FormatInt off) Hk Hf), Hp. reflexivity.
Qed.

(** X15.  [parseCursor] rejects a string with the wrong number of fields:
    a non-empty cursor without any ['|'], or with three or more of them,
    is an ["invalid cursor"]. *)
Theorem parseCursor_rejects_field_count (s : string) :
  s <> "" ->
  (countPipes s = 0 \/ 3 <= countPipes s)%nat ->
  parseCursor s = (zeroCursor, Some (ErrNew "invalid cursor")).
Proof.
  intros Hne Hcount. unfold parseCursor.
  destruct (String.eqb_spec s ""); [contradiction|].
  rewrite Split_length.
  destruct (Z.ltb_spec (Z.of_nat (S (countPipes s))) 2); [reflexivity|].
  destruct (Z.gtb_spec (Z.of_nat (S (countPipes s))) 3); [reflexivity|].
  lia.
Qed.

Lemma parseCursor_rejects_field_count_witness :
  parseCursor "a|1|last|x" = (zeroCursor, Some (ErrNew "invalid cursor")).
Proof.
  apply (parseCursor_rejects_field_count "a|1|last|x").
  - discriminate.
  - right. simpl. lia.
Defined.

(** X16.  With two or three fields [parseCursor] decides field by field:
    an offset that does not parse as an [int64] is an ["invalid cursor
    offset"], also when a third field follows; a third field other than
    ["last"] is an ["invalid cursor end"]; otherwise the cursor has the
    first field as key, the parsed offset, and the last flag exactly
    when the third field is there. *)
Theorem parseCursor_by_fields (k f l : string) :
  hasPipe k = false -> hasPipe f = false -> hasPipe l = false ->
  (snd (ParseInt f) <> None ->
   parseCursor (k ++ "|" ++ f)
     = (zeroCursor, Some (ErrNew "invalid cursor offset")) /\
   parseCursor (k ++ "|" ++ f ++ "|" ++ l)
     = (zeroCursor, Some (ErrNew "invalid cursor offset"))) /\
  (snd (ParseInt f) = None ->
   parseCursor (k ++ "|" ++ f) = (mkCursor k (fst (ParseInt f)) false, None) /\
   parseCursor (k ++ "|" ++ f ++ "|last")
     = (mkCursor k (fst (ParseInt f)) true, None) /\
   (l <> "last" ->
    parseCursor (k ++ "|" ++ f ++ "|" ++ l)
      = (zeroCursor, Some (ErrNew "invalid cursor end")))).
Proof.
  intros Hk Hf Hl.
  rewrite (parseCursor_two_fields k f Hk Hf).
  rewrite (parseCursor_three_fields k f l Hk Hf Hl).
  change (f ++ "|last") with (f ++ "|" ++ "last").
  rewrite (parseCursor_three_fields k f "last" Hk Hf eq_refl).
  destruct (ParseInt f) as [i [x|]]; simpl; split.
  - intros _. split; reflexivity.
  - discriminate.
  - intros H. congruence.
  - intros _. repeat split.
    intros Hne. destruct (String.eqb_spec l "last"); [contradiction | reflexivity].
Qed.

Lemma parseCursor_by_fields_witness :
  (parseCursor "a|x7" = (zeroCursor, Some (ErrNew "invalid cursor offset")) /\
   parseCursor "a|x7|end" = (zeroCursor, Some (ErrNew "invalid cursor offset"))) /\
  (parseCursor "a|+07" = (mkCursor "a" 7 false, None) /\
   parseCursor "a|+07|last" = (mkCursor "a" 7 true, None) /\
   parseCursor "a|+07|end" = (zeroCursor, Some (ErrNew "invalid cursor end"))).
Proof.
  split.
  - apply (proj1 (parseCursor_by_fields "a" "x7" "end" eq_refl eq_refl eq_refl)).
    vm_compute. discriminate.
  - destruct (proj2 (parseCursor_by_fields "a" "+07" "end" eq_refl eq_refl eq_refl)
                eq_refl) as [H1 [H2 H3]].
    split; [exact H1 | split; [exact H2 | apply H3; discriminate]].
Defined.

(** X17.  Whatever [parseCursor] accepts is a cursor that prints and
    parses back to itself: its key holds no ['|'], its offset is an
    [int64], and parsing its printed form gives the same cursor again
    (the printed form is the normal form of the accepted string). *)
Theorem parsed_cursor_is_normal (s : string) (c : cursor) :
  parseCursor s = (c, None) ->
  hasPipe (Key c) = false /\ in_int64 (Offset c) /\
  parseCursor (String_ c) = (c, None).
Proof.
  intros Hparse.
  assert (H : hasPipe (Key c) = false /\ in_int64 (Offset c)).
  { revert Hparse. unfold parseCursor.
    destruct (String.eqb s "").
    { intros H. injection H as <-. split; [reflexivity|].
      unfold in_int64, min_int64, max_int64. simpl. lia. }
    destruct ((Z.of_nat (List.length (Split s)) <? 2) ||
              (Z.of_nat (List.length (Split s)) >? 3)); [discriminate|].
    destruct (ParseInt (nth 1 (Split s) "")) as [i [x|]] eqn:Hp; [discriminate|].
    assert (Hkey : hasPipe (nth 0 (Split s) "") = false).
    { pose proof (Split_elems_noPipe s) as HF.
      destruct (Split s) as [|h r]; [reflexivity|]. inversion HF; assumption. }
    apply ParseInt_in_int64 in Hp.
    destruct (Z.of_nat (List.length (Split s)) =? 3).
    - destruct (negb (String.eqb (nth 2 (Split s) "") "last")); [discriminate|].
      intros H. injection H as <-. split; assumption.
    - intros H. injection H as <-. split; assumption. }
  destruct H as [Hk Ho]. split; [exact Hk | split; [exact Ho|]].
  apply parseCursor_of_String; assumption.
Qed.

Lemma parsed_cursor_is_normal_witness :
  hasPipe (Key (mkCursor "a" 7 true)) = false /\
  in_int64 (Offset (mkCursor "a" 7 true)) /\
  parseCursor (String_ (mkCursor "a" 7 true)) = (mkCursor "a" 7 true, None).
Proof.
  apply (parsed_cursor_is_normal "a|+07|last" (mkCursor "a" 7 true)).
  vm_compute. reflexivity.
Defined.

(** X18.  Cursors with different keys, offsets or last flags print
    differently: on cursors whose keys hold no ['|'] and whose offsets
    are [int64] values, [String] is injective. *)
Theorem cursor_String_injective (c1 c2 : cursor) :
  hasPipe (Key c1) = false -> in_int64 (Offset c1) ->
  hasPipe (Key c2) = false -> in_int64 (Offset c2) ->
  String_ c1 = String_ c2 -> c1 = c2.
Proof.
  intros Hk1 Ho1 Hk2 Ho2 Heq.
  pose proof (parseCursor_of_String c1 Hk1 Ho1) as H1.
  pose proof (parseCursor_of_String c2 Hk2 Ho2) as H2.
  rewrite Heq in H1. rewrite H1 in H2. injection H2 as ->. reflexivity.
Qed.

Lemma cursor_String_injective_witness :
  mkCursor "a" 7 true = mkCursor "a" 7 true.
Proof.
  apply (cursor_String_injective (mkCursor "a" 7 true) (mkCursor "a" 7 true)).
  - reflexivity.
  - unfold in_int64, min_int64, max_int64. simpl. lia.
  - reflexivity.
  - unfold in_int64, min_int64, max_int64. simpl. lia.
  - reflexivity.
Defined.

End CursorParsing.

(** ** The blob stream *)

Section BlobStreamTermination.

Import Rblob RblobStream BlobProps.

Lemma ascii_compare_refl (a : ascii) : Ascii.compare a a = Eq.
Proof. unfold Ascii.compare. apply N.compare_refl. Qed.

Lemma ascii_compare_lt_trans (a b c : ascii) :
  Ascii.compare a b = Lt -> Ascii.compare b c = Lt -> Ascii.compare a c = Lt.
Proof.
  unfold Ascii.compare. rewrite !N.compare_lt_iff. apply N.lt_trans.
Qed.

Lemma string_compare_refl (s : string) : String.compare s s = Eq.
Proof.
  induction s as [|c t IH]; [reflexivity|]. simpl.
  rewrite ascii_compare_refl. exact IH.
Qed.

Lemma string_compare_lt_trans (a b c : string) :
  String.compare a b = Lt -> String.compare b c = Lt -> String.compare a c = Lt.
Proof.
  revert b c. induction a as [|x a IH]; intros [|y b] [|z c]; simpl;
    try discriminate; try reflexivity.
  destruct (Ascii.compare x y) eqn:Hxy; try discriminate.
  - apply Ascii.compare_eq_iff in Hxy. subst y.
    destruct (Ascii.compare x z); try discriminate; [apply IH | reflexivity].
  - intros _. destruct (Ascii.compare y z) eqn:Hyz; try discriminate.
    + apply Ascii.compare_eq_iff in Hyz. subst z. rewrite Hxy. reflexivity.
    + intros _. rewrite (ascii_compare_lt_trans _ _ _ Hxy Hyz). reflexivity.
Qed.

Lemma ltb_trans (a b c : string) :
  String.ltb a b = true -> String.ltb b c = true -> String.ltb a c = true.
Proof.
  unfold String.ltb.
  destruct (String.compare a b) eqn:Hab; try discriminate.
  destruct (String.compare b c) eqn:Hbc; try discriminate.
  rewrite (string_compare_lt_trans _ _ _ Hab Hbc). reflexivity.
Qed.

Lemma ltb_irrefl (a : string) : String.ltb a a = false.
Proof. unfold String.ltb. rewrite string_compare_refl. reflexivity. Qed.

Lemma ltb_empty (a : string) : String.ltb a EmptyString = false.
Proof. destruct a; reflexivity. Qed.

Lemma iterNext_found (objs : list object) (ending : ioErr) (prev k : string) :
  iterNext objs ending prev = (k, None) ->
  String.ltb prev k = true /\ exists o, In o objs /\ okey o = k.
Proof.
  induction objs as [|o t IH]; simpl; [discriminate|].
  destruct (String.ltb prev (okey o)) eqn:Hlt.
  - intros H. injection H as <-. split; [exact Hlt|].
    exists o. split; [left; reflexivity | reflexivity].
  - intros H. destruct (IH H) as [H1 [o' [Hin Hk]]].
    split; [exact H1|]. exists o'. split; [right; exact Hin | exact Hk].
Qed.

Lemma keysAbove_le (objs : list object) (k k' : string) :
  String.ltb k k' = true -> (keysAbove objs k' <= keysAbove objs k)%nat.
Proof.
  intros Hlt. induction objs as [|o t IH]; simpl; [lia|].
  destruct (String.ltb k' (okey o)) eqn:H1.
  - rewrite (ltb_trans _ _ _ Hlt H1). lia.
  - destruct (String.ltb k (okey o)); lia.
Qed.

Lemma keysAbove_lt (objs : list object) (k k' : string) :
  String.ltb k k' = true -> (exists o, In o objs /\ okey o = k') ->
  (keysAbove objs k' < keysAbove objs k)%nat.
Proof.
  intros Hlt [o [Hin Hk]]. induction objs as [|x t IH]; [destruct Hin|].
  simpl. destruct Hin as [-> | Hin].
  - rewrite Hk, Hlt, ltb_irrefl.
    pose proof (keysAbove_le t k k' Hlt). lia.
  - specialize (IH Hin).
    destruct (String.ltb k' (okey x)) eqn:H1.
    + rewrite (ltb_trans _ _ _ Hlt H1). lia.
    + destruct (String.ltb k (okey x)); lia.
Qed.

Lemma keysAbove_length (objs : list object) (k : string) :
  (keysAbove objs k <= List.length objs)%nat.
Proof.
  induction objs as [|o t IH]; simpl; [lia|].
  destruct (String.ltb k (okey o)); lia.
Qed.

(** A successful [loadNextBlob] moves the cursor to a greater key, one
    that the listing holds. *)
Lemma loadNextBlob_moves_on (bk : bucket) (s s' : stream) (u : unit) :
  loadNextBlob bk s = (Got u, s') ->
  String.ltb (Key (cursor_ s)) (Key (cursor_ s')) = true /\
  exists o, In o (objects bk) /\ okey o = Key (cursor_ s').
Proof.
  unfold loadNextBlob, getNextKey.
  destruct (iterNext (objects bk)
              (match listErr bk with Some x => Err x | None => EOF end)
              (Key (cursor_ s))) as [k [[|x]|]] eqn:Hit; try discriminate.
  destruct (NewReader bk k) as [x|o]; [discriminate|].
  destruct (decoderErr o); [discriminate|].
  destruct (Decode (outs o)) as [[p er] d].
  destruct er as [[|x]|]; try discriminate;
    intros H; injection H as _ <-; simpl; exact (iterNext_found _ _ _ _ Hit).
Qed.

Lemma loadNextBlob_ends (bk : bucket) (s : stream) :
  fst (loadNextBlob bk s) <> OutOfFuel /\ fst (loadNextBlob bk s) <> Panics.
Proof.
  unfold loadNextBlob.
  destruct (getNextKey bk (Key (cursor_ s))) as [k [[|x]|]];
    try (split; discriminate).
  destruct (NewReader bk k) as [x|o]; [split; discriminate|].
  destruct (decoderErr o); [split; discriminate|].
  destruct (Decode (outs o)) as [[p er] d].
  destruct er as [[|x]|]; split; discriminate.
Qed.

Lemma seekBlob_ends (fuel : nat) (bk : bucket) (s : stream) :
  (keysAbove (objects bk) (Key (cursor_ s)) < fuel)%nat ->
  fst (seekBlob fuel bk s) <> OutOfFuel /\ fst (seekBlob fuel bk s) <> Panics.
Proof.
  revert s. induction fuel as [|f IH]; intros s Hm; [lia|].
  simpl. destruct (String.eqb (Key (cursor_ s)) "" || Last (cursor_ s));
    [|split; discriminate].
  destruct (loadNextBlob bk s) as [r s'] eqn:HL.
  pose proof (loadNextBlob_ends bk s) as He. rewrite HL in He. simpl in He.
  destruct r as [u| | | |]; simpl; try (split; discriminate); try tauto.
  apply IH.
  destruct (loadNextBlob_moves_on bk s s' u HL) as [Hlt Hex].
  pose proof (keysAbove_lt (objects bk) _ _ Hlt Hex). lia.
Qed.

Lemma loadCurrentBlob_sets_decoder (bk : bucket) (s s' : stream) (u : unit) :
  loadCurrentBlob bk s = (Got u, s') -> decoder s' <> None.
Proof.
  unfold loadCurrentBlob.
  destruct (negb (blobTime s =? 0)); [discriminate|].
  destruct (NewReader bk (Key (cursor_ s))) as [x|o]; [discriminate|].
  destruct (decoderErr o); [discriminate|].
  destruct (gobble (outs o) 0 (Offset (cursor_ s))) as [x|d]; [discriminate|].
  destruct (Decode d) as [[p er] d'].
  destruct er as [[|x]|]; try discriminate.
  intros H. injection H as _ <-. discriminate.
Qed.

Lemma loadCurrentBlob_ends (bk : bucket) (s : stream) :
  fst (loadCurrentBlob bk s) <> OutOfFuel /\
  fst (loadCurrentBlob bk s) <> Panics.
Proof.
  unfold loadCurrentBlob.
  destruct (negb (blobTime s =? 0)); [split; discriminate|].
  destruct (NewReader bk (Key (cursor_ s))) as [x|o]; [split; discriminate|].
  destruct (decoderErr o); [split; discriminate|].
  destruct (gobble (outs o) 0 (Offset (cursor_ s))) as [x|d];
    [split; discriminate|].
  destruct (Decode d) as [[p er] d'].
  destruct er as [[|x]|]; split; discriminate.
Qed.

(** X19.  [Recv] on a blob stream always ends in an event, an error or a
    wait for the next blob: its search for the next blob with a record
    makes at most one pass per listed object, because each pass moves to
    a strictly greater key, and it never calls a nil decoder; this for
    every bucket and every stream state. *)
Theorem blob_Recv_ends (bk : bucket) (s : stream) :
  fst (Recv bk s) <> OutOfFuel /\ fst (Recv bk s) <> Panics.
Proof.
  unfold Recv.
  pose proof (seekBlob_ends (S (List.length (objects bk))) bk s) as Hseek.
  destruct (seekBlob (S (List.length (objects bk))) bk s) as [r s1].
  assert (Hm : (keysAbove (objects bk) (Key (cursor_ s))
                < S (List.length (objects bk)))%nat).
  { pose proof (keysAbove_length (objects bk) (Key (cursor_ s))). lia. }
  specialize (Hseek Hm). simpl in Hseek.
  destruct r as [u| | | |]; try (split; discriminate); try tauto.
  assert (Hd : forall s2 d, fst (deliver s2 d) <> OutOfFuel /\
                            fst (deliver s2 d) <> Panics).
  { intros s2 d. unfold deliver. destruct (Decode d) as [[p er] d'].
    destruct er as [[|x]|]; split; discriminate. }
  destruct (decoder s1) as [d|] eqn:Hdec.
  - rewrite Hdec. apply Hd.
  - pose proof (loadCurrentBlob_ends bk s1) as Hc.
    destruct (loadCurrentBlob bk s1) as [r2 s2] eqn:HL. simpl in Hc.
    destruct r2 as [u2| | | |]; try (split; discriminate); try tauto.
    pose proof (loadCurrentBlob_sets_decoder bk s1 s2 u2 HL) as Hs.
    destruct (decoder s2) as [d|]; [apply Hd | congruence].
Qed.

End BlobStreamTermination.

Section BlobStreamDelivery.

Import Rblob RblobStream BlobProps.

Lemma map_Rec_skipn (recs : list payload) (n : nat) :
  map Rec (skipn n recs) =
    match nth_error recs n with
    | Some r => Rec r :: map Rec (skipn (S n) recs)
    | None => []
    end.
Proof.
  revert recs. induction n as [|n IH]; intros recs.
  - destruct recs; reflexivity.
  - destruct recs as [|r t]; [reflexivity|]. simpl. apply IH.
Qed.

Lemma recAt_nonneg (recs : list payload) (i : Z) :
  0 <= i -> recAt recs i = nth_error recs (Z.to_nat i).
Proof. intros H. unfold recAt. destruct (Z.ltb_spec i 0); [lia | reflexivity]. Qed.

Lemma recAt_inside (recs : list payload) (i : Z) :
  0 <= i < Z.of_nat (List.length recs) -> isNil (recAt recs i) = false.
Proof.
  intros H. rewrite recAt_nonneg by lia.
  destruct (nth_error recs (Z.to_nat i)) eqn:Hn; [reflexivity|].
  apply nth_error_None in Hn. lia.
Qed.

Lemma recAt_outside (recs : list payload) (i : Z) :
  Z.of_nat (List.length recs) <= i -> recAt recs i = None.
Proof.
  intros H. rewrite recAt_nonneg by lia. apply nth_error_None. lia.
Qed.

Lemma seekBlob_stays (fuel : nat) (bk : bucket) (s : stream) :
  String.eqb (Key (cursor_ s)) "" = false -> Last (cursor_ s) = false ->
  seekBlob fuel bk s = (Got tt, s).
Proof. intros H1 H2. destruct fuel; simpl; rewrite H1, H2; reflexivity. Qed.

Lemma Recv_with_decoder (bk : bucket) (s : stream) (d : Decoder) :
  String.eqb (Key (cursor_ s)) "" = false -> Last (cursor_ s) = false ->
  decoder s = Some d ->
  Recv bk s = deliver s d.
Proof.
  intros H1 H2 Hd. unfold Recv. rewrite (seekBlob_stays _ bk s H1 H2).
  rewrite Hd. cbv beta iota. rewrite Hd. reflexivity.
Qed.

(** Delivering from the state after record [i] gives record [i + 1] and
    the state after it. *)
Lemma deliver_steady (bo : Z) (o : object) (recs : list payload) (i : Z) :
  -1 <= i -> i + 1 < Z.of_nat (List.length recs) ->
  Z.of_nat (List.length recs) <= max_int64 ->
  deliver (steady bo o recs i)
          (map Rec (skipn (Z.to_nat (i + 2)) recs))
    = (Got (eventOf o recs (i + 1)), steady bo o recs (i + 1)).
Proof.
  intros Hi Hin Hmax.
  assert (Hadd : add64 i 1 = i + 1).
  { unfold add64. apply wrap64_id. unfold in_int64, min_int64, max_int64 in *.
    change (2 ^ 63) with 9223372036854775808 in *. lia. }
  unfold deliver. rewrite map_Rec_skipn.
  unfold steady, eventOf. cbn [backoff next cursor_ blobTime Key Offset].
  rewrite Hadd.
  replace (i + 1 + 1) with (i + 2) by lia.
  replace (i + 1 + 2) with (i + 3) by lia.
  rewrite (recAt_nonneg recs (i + 2)) by lia.
  destruct (nth_error recs (Z.to_nat (i + 2))) as [r|] eqn:Hn; cbn [Decode].
  - replace (Z.to_nat (i + 3)) with (S (Z.to_nat (i + 2))) by lia. reflexivity.
  - apply nth_error_None in Hn.
    rewrite (skipn_all2 recs) by lia. reflexivity.
Qed.

(** From the state after record [i], [Recv] delivers record [i + 1] and
    leaves the state after it. *)
Lemma blob_Recv_delivers_next_record (bk : bucket) (bo : Z) (o : object)
  (recs : list payload) (i : Z) :
  okey o <> EmptyString ->
  -1 <= i -> i + 1 < Z.of_nat (List.length recs) ->
  Z.of_nat (List.length recs) <= max_int64 ->
  Recv bk (steady bo o recs i)
    = (Got (eventOf o recs (i + 1)), steady bo o recs (i + 1)).
Proof.
  intros Hk Hi Hin Hmax.
  rewrite (Recv_with_decoder bk (steady bo o recs i)
             (map Rec (skipn (Z.to_nat (i + 2)) recs))).
  - apply deliver_steady; assumption.
  - simpl. apply String.eqb_neq. exact Hk.
  - simpl. apply recAt_inside. lia.
  - reflexivity.
Qed.

Lemma findObject_key (objs : list object) (k : string) (o : object) :
  findObject objs k = Some o -> okey o = k /\ In o objs.
Proof.
  induction objs as [|x t IH]; simpl; [discriminate|].
  destruct (String.eqb_spec (okey x) k) as [Heq|Hne].
  - intros H. injection H as <-. split; [exact Heq | left; reflexivity].
  - intros H. destruct (IH H) as [H1 H2]. split; [exact H1 | right; exact H2].
Qed.

Lemma NewReader_wellBehaved (bk : bucket) (k : string) (o : object)
  (recs : list payload) :
  findObject (objects bk) k = Some o -> wellBehaved o recs ->
  NewReader bk k = inr o.
Proof.
  intros Hf [Ho _]. unfold NewReader. rewrite Hf, Ho. reflexivity.
Qed.

(** Loading the next blob leaves the stream right before its record
    0. *)
Lemma loadNextBlob_steady (bk : bucket) (s : stream) (k : string) (o : object)
  (recs : list payload) :
  getNextKey bk (Key (cursor_ s)) = (k, None) ->
  findObject (objects bk) k = Some o -> wellBehaved o recs ->
  loadNextBlob bk s = (Got tt, steady (backoff s) o recs (-1)).
Proof.
  intros Hnext Hf Hwb.
  pose proof (NewReader_wellBehaved bk k o recs Hf Hwb) as Hr.
  destruct (findObject_key _ _ _ Hf) as [Hkey _].
  destruct Hwb as [_ [Hdec Houts]].
  unfold loadNextBlob. rewrite Hnext, Hr, Hdec, Houts.
  unfold steady. rewrite Hkey.
  destruct recs as [|r t]; reflexivity.
Qed.

(** X20.  At the end of a blob, or on a stream that has loaded nothing,
    [Recv] opens the next blob: the first listed object with a greater
    key.  When that object decodes to at least one record, [Recv]
    returns its record 0 with the id [key|0] (with [|last] exactly when
    it is the only record) and the blob's modification time. *)
Theorem blob_Recv_opens_next_blob (bk : bucket) (s : stream) (k : string)
  (o : object) (recs : list payload) :
  Key (cursor_ s) = EmptyString \/ Last (cursor_ s) = true ->
  getNextKey bk (Key (cursor_ s)) = (k, None) ->
  findObject (objects bk) k = Some o -> wellBehaved o recs ->
  recs <> [] -> Z.of_nat (List.length recs) <= max_int64 ->
  Recv bk s = (Got (eventOf o recs 0), steady (backoff s) o recs 0).
Proof.
  intros Hend Hnext Hf Hwb Hne Hmax.
  destruct (findObject_key _ _ _ Hf) as [Hkey _].
  assert (Hknz : okey o <> EmptyString).
  { unfold getNextKey in Hnext. apply iterNext_found in Hnext as [Hlt _].
    rewrite Hkey. intros ->. rewrite ltb_empty in Hlt. discriminate. }
  assert (Hlen : 0 < Z.of_nat (List.length recs))
    by (destruct recs; [congruence | simpl; lia]).
  assert (Hcond : String.eqb (Key (cursor_ s)) "" || Last (cursor_ s) = true).
  { destruct Hend as [-> | ->]; [reflexivity | apply orb_true_r]. }
  unfold Recv. cbn [seekBlob]. rewrite Hcond.
  rewrite (loadNextBlob_steady bk s k o recs Hnext Hf Hwb).
  rewrite seekBlob_stays.
  - cbn [steady decoder].
    change (-1 + 2) with 1.
    pose proof (deliver_steady (backoff s) o recs (-1)) as Hd.
    change (-1 + 2) with 1 in Hd. change (-1 + 1) with 0 in Hd.
    apply Hd; lia.
  - simpl. apply String.eqb_neq. exact Hknz.
  - simpl. apply recAt_inside. lia.
Qed.

(** The events of records [i + 1] to [i + n], in order. *)
Lemma recvN_steady (bk : bucket) (bo : Z) (o : object) (recs : list payload)
  (n : nat) (i : Z) :
  okey o <> EmptyString ->
  -1 <= i -> i + Z.of_nat n < Z.of_nat (List.length recs) ->
  Z.of_nat (List.length recs) <= max_int64 ->
  recvN n bk (steady bo o recs i)
    = Some (map (fun j => eventOf o recs (i + 1 + Z.of_nat j)) (seq 0 n),
            steady bo o recs (i + Z.of_nat n)).
Proof.
  intros Hk. revert i. induction n as [|n IH]; intros i Hi Hin Hmax.
  - simpl. replace (i + 0) with i by lia. reflexivity.
  - cbn [recvN].
    rewrite (blob_Recv_delivers_next_record bk bo o recs i Hk Hi) by lia.
    rewrite (IH (i + 1)) by lia.
    replace (i + 1 + Z.of_nat n) with (i + Z.of_nat (S n)) by lia.
    f_equal. f_equal. cbn [seq map].
    replace (i + 1 + Z.of_nat 0) with (i + 1) by lia. f_equal.
    rewrite <- seq_shift, map_map.
    apply map_ext. intros j. f_equal. lia.
Qed.

(** X21.  A blob is delivered record by record, in order and without
    gaps: starting right after it was loaded (or after any of its
    records), [n] calls of [Recv] return the next [n] records as
    metadata, each with the blob's modification time and the id
    [key|index], marked [|last] exactly on the blob's final record, and
    leave the stream in the state after the last of them. *)
Theorem blob_records_delivered_in_order (bk : bucket) (bo : Z) (o : object)
  (recs : list payload) (n : nat) (i : Z) :
  okey o <> EmptyString ->
  -1 <= i -> i + Z.of_nat n < Z.of_nat (List.length recs) ->
  Z.of_nat (List.length recs) <= max_int64 ->
  recvN n bk (steady bo o recs i)
    = Some (map (fun j => eventOf o recs (i + 1 + Z.of_nat j)) (seq 0 n),
            steady bo o recs (i + Z.of_nat n)) /\
  (forall j, 0 <= j < Z.of_nat (List.length recs) ->
     MetaData (eventOf o recs j) = nth_error recs (Z.to_nat j) /\
     Timestamp (eventOf o recs j) = modTime o /\
     ID (eventOf o recs j)
       = String_ (mkCursor (okey o) j
                    (Z.of_nat (List.length recs) <=? j + 1))).
Proof.
  intros Hk Hi Hin Hmax. split; [apply recvN_steady; assumption|].
  intros j Hj. unfold eventOf. cbn [MetaData Timestamp ID].
  split; [apply recAt_nonneg; lia|]. split; [reflexivity|].
  f_equal. f_equal.
  destruct (Z.leb_spec (Z.of_nat (List.length recs)) (j + 1)).
  - rewrite recAt_outside by lia. reflexivity.
  - apply recAt_inside. lia.
Qed.

End BlobStreamDelivery.

Section BlobStreamResume.

Import Rblob RblobStream BlobProps BlobExamples.

Lemma gobble_reaches (l : list payload) (j target : Z) :
  0 <= j <= target -> target - j < Z.of_nat (List.length l) ->
  target <= max_int64 ->
  gobble (map Rec l) j target
    = inr (map Rec (skipn (Z.to_nat (target - j + 1)) l)).
Proof.
  revert j. induction l as [|r t IH]; intros j Hj Hin Hmax.
  - simpl in Hin. lia.
  - cbn [map gobble]. destruct (Z.eqb_spec j target) as [->|Hne].
    + replace (target - target + 1) with 1 by lia. reflexivity.
    + assert (Hadd : add64 j 1 = j + 1).
      { unfold add64. apply wrap64_id. unfold in_int64, min_int64, max_int64 in *.
        change (2 ^ 63) with 9223372036854775808 in *. lia. }
      rewrite Hadd, IH; [| lia | simpl in Hin; lia | lia].
      replace (Z.to_nat (target - j + 1)) with (S (Z.to_nat (target - (j + 1) + 1)))
        by lia.
      reflexivity.
Qed.


(** A stream made from a cursor inside a blob loads that blob up to the
    cursor and stands where the delivering stream stood. *)
Lemma loadCurrentBlob_steady (bk : bucket) (bo : Z) (o : object)
  (recs : list payload) (i : Z) :
  findObject (objects bk) (okey o) = Some o -> wellBehaved o recs ->
  0 <= i -> i + 1 < Z.of_nat (List.length recs) ->
  Z.of_nat (List.length recs) <= max_int64 ->
  loadCurrentBlob bk (mkBlobStream bo None (mkCursor (okey o) i false) 0 None)
    = (Got tt, steady bo o recs i).
Proof.
  intros Hf Hwb Hi Hin Hmax.
  pose proof (NewReader_wellBehaved bk (okey o) o recs Hf Hwb) as Hr.
  destruct Hwb as [_ [Hdec Houts]].
  unfold loadCurrentBlob. cbn [blobTime cursor_ Key Offset backoff].
  change (negb (0 =? 0)) with false. cbv iota.
  rewrite Hr, Hdec, Houts.
  rewrite gobble_reaches by lia.
  replace (i - 0 + 1) with (i + 1) by lia.
  rewrite map_Rec_skipn.
  unfold steady. rewrite (recAt_nonneg recs (i + 1)) by lia.
  destruct (nth_error recs (Z.to_nat (i + 1))) as [r|] eqn:Hn.
  - cbn [Decode isNil].
    replace (Z.to_nat (i + 2)) with (S (Z.to_nat (i + 1))) by lia. reflexivity.
  - apply nth_error_None in Hn. lia.
Qed.

(** What [loadNextBlob] does depends on the stream through the key of
    its cursor and its backoff only. *)
Lemma loadNextBlob_by_key (bk : bucket) (s1 s2 : stream) :
  Key (cursor_ s1) = Key (cursor_ s2) -> backoff s1 = backoff s2 ->
  fst (loadNextBlob bk s1) = fst (loadNextBlob bk s2) /\
  (forall u, fst (loadNextBlob bk s1) = Got u ->
             snd (loadNextBlob bk s1) = snd (loadNextBlob bk s2)).
Proof.
  intros Hk Hb. unfold loadNextBlob. rewrite Hk, Hb.
  destruct (getNextKey bk (Key (cursor_ s2))) as [k [[|x]|]];
    try (split; [reflexivity | discriminate]).
  destruct (NewReader bk k) as [x|o]; [split; [reflexivity | discriminate]|].
  destruct (decoderErr o); [split; [reflexivity | discriminate]|].
  destruct (Decode (outs o)) as [[p er] d].
  destruct er as [[|x]|]; split; try reflexivity; try discriminate.
Qed.

Lemma Recv_at_blob_end_by_key (bk : bucket) (s1 s2 : stream) :
  Key (cursor_ s1) = Key (cursor_ s2) -> backoff s1 = backoff s2 ->
  Key (cursor_ s1) = EmptyString \/
    (Last (cursor_ s1) = true /\ Last (cursor_ s2) = true) ->
  sameDelivery (Recv bk s1) (Recv bk s2).
Proof.
  intros Hk Hb Hend.
  assert (Hc1 : String.eqb (Key (cursor_ s1)) "" || Last (cursor_ s1) = true).
  { destruct Hend as [-> | [-> _]]; [reflexivity | apply orb_true_r]. }
  assert (Hc2 : String.eqb (Key (cursor_ s2)) "" || Last (cursor_ s2) = true).
  { rewrite <- Hk. destruct Hend as [-> | [_ ->]]; [reflexivity | apply orb_true_r]. }
  destruct (loadNextBlob_by_key bk s1 s2 Hk Hb) as [Hfst Hsnd].
  unfold Recv. cbn [seekBlob]. rewrite Hc1, Hc2.
  destruct (loadNextBlob bk s1) as [r1 t1].
  destruct (loadNextBlob bk s2) as [r2 t2].
  simpl in Hfst, Hsnd. subst r2.
  destruct r1 as [u| | | |].
  - rewrite (Hsnd u eq_refl). split; [reflexivity | intros; reflexivity].
  - split; [reflexivity | discriminate].
  - split; [reflexivity | discriminate].
  - split; [reflexivity | discriminate].
  - split; [reflexivity | discriminate].
Qed.

(** X22.  Resuming from the id of a delivered event continues the
    stream.  For record [i] of a blob whose key is not empty and holds
    no ['|'], [Bucket.Stream] accepts the id of the event as cursor, and
    the first [Recv] of the new stream ends as the next [Recv] of the
    stream that delivered the event: with the same event, error or wait,
    and after an event in the same state, so that everything after is
    the same too. *)
Theorem blob_resume_continues (bk : bucket) (bo : Z) (o : object)
  (recs : list payload) (i : Z) :
  findObject (objects bk) (okey o) = Some o -> wellBehaved o recs ->
  okey o <> EmptyString -> Strings.hasPipe (okey o) = false ->
  0 <= i < Z.of_nat (List.length recs) ->
  Z.of_nat (List.length recs) <= max_int64 ->
  exists s0,
    Stream bo (ID (eventOf o recs i)) 0 = inr s0 /\
    sameDelivery (Recv bk s0) (Recv bk (steady bo o recs i)).
Proof.
  intros Hf Hwb Hk Hpipe Hi Hmax.
  set (c := mkCursor (okey o) i (isNil (recAt recs (i + 1)))).
  assert (Hparse : parseCursor (String_ c) = (c, None)).
  { apply parseCursor_of_String; [exact Hpipe|].
    unfold in_int64, min_int64, max_int64 in *. simpl.
    change (2 ^ 63) with 9223372036854775808 in *. lia. }
  exists (mkBlobStream bo None c 0 None). split.
  { unfold Stream, eventOf. cbn [ID]. fold c. rewrite Hparse. reflexivity. }
  destruct (Z.ltb_spec (i + 1) (Z.of_nat (List.length recs))) as [Hin|Hlast].
  - assert (Hc : c = mkCursor (okey o) i false).
    { unfold c. rewrite recAt_inside by lia. reflexivity. }
    rewrite Hc.
    assert (Hneq : String.eqb (okey o) "" = false) by (apply String.eqb_neq; exact Hk).
    assert (Heq : Recv bk (mkBlobStream bo None (mkCursor (okey o) i false) 0 None)
                  = Recv bk (steady bo o recs i)).
    { rewrite (Recv_with_decoder bk (steady bo o recs i)
                 (map Rec (skipn (Z.to_nat (i + 2)) recs)));
        [| exact Hneq | simpl; apply recAt_inside; lia | reflexivity].
      unfold Recv. rewrite seekBlob_stays; [| exact Hneq | reflexivity].
      cbn [decoder].
      rewrite (loadCurrentBlob_steady bk bo o recs i Hf Hwb) by lia.
      reflexivity. }
    rewrite Heq. split; [reflexivity | intros; reflexivity].
  - apply Recv_at_blob_end_by_key; [reflexivity | reflexivity |].
    right. unfold c. simpl. rewrite recAt_outside by lia. split; reflexivity.
Qed.

Lemma blob_resume_continues_witness :
  exists s0,
    Stream 60 (ID (eventOf blobA recsA 0)) 0 = inr s0 /\
    sameDelivery (Recv twoBlobs s0) (Recv twoBlobs (steady 60 blobA recsA 0)).
Proof.
  apply (blob_resume_continues twoBlobs 60 blobA recsA 0).
  - reflexivity.
  - repeat split.
  - discriminate.
  - reflexivity.
  - simpl. lia.
  - vm_compute. discriminate.
Defined.



Lemma blob_Recv_opens_next_blob_witness :
  Recv twoBlobs (steady 60 blobA recsA 2)
    = (Got (eventOf blobB recsB 0), steady 60 blobB recsB 0).
Proof.
  apply (blob_Recv_opens_next_blob twoBlobs (steady 60 blobA recsA 2)
           "2024/b" blobB recsB).
  - right. reflexivity.
  - reflexivity.
  - reflexivity.
  - repeat split.
  - discriminate.
  - vm_compute. discriminate.
Defined.

Lemma blob_records_delivered_in_order_witness :
  recvN 3 twoBlobs (steady 60 blobA recsA (-1))
    = Some (map (fun j => eventOf blobA recsA (-1 + 1 + Z.of_nat j)) (seq 0 3),
            steady 60 blobA recsA (-1 + Z.of_nat 3)) /\
  (forall j, 0 <= j < Z.of_nat (List.length recsA) ->
     MetaData (eventOf blobA recsA j) = nth_error recsA (Z.to_nat j) /\
     Timestamp (eventOf blobA recsA j) = modTime blobA /\
     ID (eventOf blobA recsA j)
       = String_ (mkCursor (okey blobA) j
                    (Z.of_nat (List.length recsA) <=? j + 1))).
Proof.
  apply (blob_records_delivered_in_order twoBlobs 60 blobA recsA 3 (-1)).
  - discriminate.
  - lia.
  - simpl. lia.
  - vm_compute. discriminate.
Defined.

End BlobStreamResume.

Section BlobStreamEmptyBlobs.

Import Rblob RblobStream BlobProps BlobExamples.

(** Past the number of greater keys the fuel of the search does not
    matter. *)
Lemma seekBlob_fuel (f1 f2 : nat) (bk : bucket) (s : stream) :
  (keysAbove (objects bk) (Key (cursor_ s)) < f1)%nat ->
  (keysAbove (objects bk) (Key (cursor_ s)) < f2)%nat ->
  seekBlob f1 bk s = seekBlob f2 bk s.
Proof.
  revert f2 s. induction f1 as [|a IH]; intros f2 s H1 H2; [lia|].
  destruct f2 as [|b]; [lia|]. simpl.
  destruct (String.eqb (Key (cursor_ s)) "" || Last (cursor_ s)); [|reflexivity].
  destruct (loadNextBlob bk s) as [r s'] eqn:HL.
  destruct r as [u| | | |]; try reflexivity.
  destruct (loadNextBlob_moves_on bk s s' u HL) as [Hlt Hex].
  pose proof (keysAbove_lt (objects bk) _ _ Hlt Hex).
  apply IH; lia.
Qed.

(** X24.  A blob without records delivers nothing and is passed over:
    when the next blob decodes to no record at all, [Recv] goes on as a
    stream that stands at the end of that blob, to the blob after it (or
    to the wait for one). *)
Theorem blob_Recv_skips_empty_blob (bk : bucket) (s : stream) (k : string)
  (o : object) :
  Key (cursor_ s) = EmptyString \/ Last (cursor_ s) = true ->
  getNextKey bk (Key (cursor_ s)) = (k, None) ->
  findObject (objects bk) k = Some o -> wellBehaved o [] ->
  Recv bk s
    = Recv bk (mkBlobStream (backoff s) None (mkCursor k (-1) true)
                 (modTime o) (Some [])).
Proof.
  intros Hend Hnext Hf Hwb.
  destruct (findObject_key _ _ _ Hf) as [Hkey _].
  assert (Hcond : String.eqb (Key (cursor_ s)) "" || Last (cursor_ s) = true).
  { destruct Hend as [-> | ->]; [reflexivity | apply orb_true_r]. }
  pose proof (loadNextBlob_steady bk s k o [] Hnext Hf Hwb) as HL.
  assert (Hst : steady (backoff s) o [] (-1)
                = mkBlobStream (backoff s) None (mkCursor k (-1) true)
                    (modTime o) (Some [])).
  { unfold steady. rewrite Hkey. reflexivity. }
  rewrite Hst in HL.
  destruct (loadNextBlob_moves_on bk s _ tt HL) as [Hlt Hex].
  pose proof (keysAbove_lt (objects bk) _ _ Hlt Hex) as Hdec.
  pose proof (keysAbove_length (objects bk) (Key (cursor_ s))) as Hlen.
  unfold Recv at 1. cbn [seekBlob]. rewrite Hcond, HL.
  unfold Recv.
  rewrite (seekBlob_fuel (List.length (objects bk))
             (S (List.length (objects bk)))) by lia.
  reflexivity.
Qed.

Lemma blob_Recv_skips_empty_blob_witness :
  Recv (mkBucket [mkObject "2024/0" 600 None None []; blobA] None)
       (mkBlobStream 60 None zeroCursor 0 None)
    = Recv (mkBucket [mkObject "2024/0" 600 None None []; blobA] None)
        (mkBlobStream 60 None (mkCursor "2024/0" (-1) true) 600 (Some [])).
Proof.
  apply (blob_Recv_skips_empty_blob
           (mkBucket [mkObject "2024/0" 600 None None []; blobA] None)
           (mkBlobStream 60 None zeroCursor 0 None) "2024/0"
           (mkObject "2024/0" 600 None None [])).
  - left. reflexivity.
  - reflexivity.
  - reflexivity.
  - repeat split.
Defined.

End BlobStreamEmptyBlobs.
